(** * Model-routing benchmark: retry client, bounded dispatcher, orchestrator

    A shallow embedding of [config.py], [router.py] and [main.py].

    - The remote chat-completion endpoint is an oracle giving the outcome
      of each attempt of a call; [get_completion] is the retry loop of
      [OpenRouterClient.get_completion] run against it, returning what the
      method returns together with the number of attempts it made (its
      calls of the endpoint) and the sleeps it performed itself. What the
      SDK client does inside one such call (it may resend the request
      and wait on its own) is not part of the embedding.
    - [process_question] is the handler, passing the shared result list
      and summary explicitly.
    - The dispatcher ([asyncio.gather] over handlers guarded by an
      [asyncio.Semaphore]) is a transition system over the tasks' states;
      a schedule is the order in which the event loop advances tasks.
    - [main] is the orchestrator, a function of the environment and of
      the schedule. *)

From Stdlib Require Import ZArith Sorted Permutation.
From stdpp Require Import base gmap list strings sorting relations.

Local Open Scope string_scope.
Local Open Scope list_scope.
Local Set Warnings "-register-all".

(** ** config.py *)

Definition MODELS_FOR_ROUTING : list string := ["openrouter/auto"].
Definition OUTPUT_FILE_NAME : string := "questions_benchmark_results.json".
Definition CONCURRENT_REQUESTS : nat := 5.

(** ** Python values *)

(** Truth value of an [Optional[str]]: [None] and the empty string are
    false, every other string is true. *)
Definition truthy (v : option string) : bool :=
  match v with
  | None => false
  | Some s => negb (String.eqb s "")
  end.

(** The values [json.dump] writes here: integers, strings, lists, and
    dicts with string keys in insertion order. *)
Inductive pyvalue :=
  | PyInt (n : Z)
  | PyStr (s : string)
  | PyList (elements : list pyvalue)
  | PyDict (items : list (string * pyvalue)).

Definition keys (items : list (string * pyvalue)) : list string := items.*1.

(** [d[key]] on the items of a dict. *)
Fixpoint dict_get (key : string) (items : list (string * pyvalue)) : option pyvalue :=
  match items with
  | [] => None
  | (k, v) :: items' => if String.eqb k key then Some v else dict_get key items'
  end.

(** ** router.py *)

(** The response object of the chat-completion endpoint, as far as the
    client reads it: [completion.model] and
    [completion.choices[0].message.content]. *)
Module ChatCompletion.
Record Message := { content : option string }.
Record Choice := { message : Message }.
Record t := { model : string; choices : list Choice }.
End ChatCompletion.

(** What one [await self.client.chat.completions.create(...)] does: it
    returns a response or raises. The exception classes are the ones the
    [except] clauses of [get_completion] tell apart. *)
Inductive api_outcome :=
  | Completion (completion : ChatCompletion.t)
  | RateLimitError
  | APIConnectionError
  | APIStatusError
  | UnexpectedError.

(** The remote service seen from one call of [get_completion]: the model
    requested, the messages (role, content) and the attempt number
    (0-based, as [attempt] in the loop) give the outcome. *)
Definition Service := string → list (string * string) → nat → api_outcome.

(** What a call of [get_completion] did: the pair it returned, how many
    attempts it made, that is, how many times it awaited
    [chat.completions.create], and the arguments of its own
    [asyncio.sleep] calls in order. An attempt is one call of the SDK
    client, which may send the request more than once and wait in
    between; these are not counted here. *)
Record completion_run := CompletionRun {
  returned : option string * option string;
  attempts : nat;
  sleeps : list Z
}.

Definition total_backoff (r : completion_run) : Z := foldr Z.add 0%Z (sleeps r).

(** One more attempt was made before [r], with or without a sleep after it. *)
Definition after_attempt (slept : option Z) (r : completion_run) : completion_run :=
  CompletionRun (returned r) (S (attempts r))
    (match slept with Some d => d :: sleeps r | None => sleeps r end).

(** Leaving the loop (by exhaustion or by [break]) reaches the final
    [return None, None]. *)
Definition gave_up : completion_run := CompletionRun (None, None) 0 [].

(** The [for attempt in range(retries)] loop; [remaining] counts the
    iterations left, [attempt] is the loop variable. *)
Fixpoint attempt_loop (request : nat → api_outcome)
    (remaining attempt : nat) (delay : Z) : completion_run :=
  match remaining with
  | O => gave_up
  | S remaining' =>
    match request attempt with
    | Completion completion =>
      match ChatCompletion.choices completion with
      | choice :: _ =>
        let model_used := ChatCompletion.model completion in
        let answer := ChatCompletion.content (ChatCompletion.message choice) in
        after_attempt None (CompletionRun (Some model_used, answer) 0 [])
      | [] =>
        (* choices[0] raises IndexError: except Exception, break *)
        after_attempt None gave_up
      end
    | RateLimitError =>
      after_attempt (Some delay)
        (attempt_loop request remaining' (S attempt) (delay * 2))
    | APIConnectionError | APIStatusError =>
      after_attempt (Some delay)
        (attempt_loop request remaining' (S attempt) (delay * 2))
    | UnexpectedError => after_attempt None gave_up
    end
  end.

(** The request of a call for [prompt], attempt by attempt: the model is
    [MODELS_FOR_ROUTING[0]], the messages are the single user message. *)
Definition create (service : Service) (prompt : string) : nat → api_outcome :=
  let messages := [("user", prompt)] in
  let auto_router_model := default "" (head MODELS_FOR_ROUTING) in
  service auto_router_model messages.

Definition get_completion (service : Service) (prompt : string)
    (retries : Z) (delay : Z) : completion_run :=
  attempt_loop (create service prompt) (Z.to_nat retries) 0 delay.

(** ** main.py: data *)

(** A record of the input file: [{id, difficulty, question}]. *)
Module Question.
Record t := { id : Z; difficulty : string; question : string }.
End Question.

(** The dict built by [process_question] for an answered question. *)
Module ResultEntry.
Record t := {
  id : Z;
  difficulty : string;
  question : string;
  model_used : string;
  answer : string
}.

Definition to_dict (e : t) : list (string * pyvalue) :=
  [("id", PyInt (id e));
   ("difficulty", PyStr (difficulty e));
   ("question", PyStr (question e));
   ("model_used", PyStr (model_used e));
   ("answer", PyStr (answer e))].
End ResultEntry.

(** The [summary] dict of [main], one field per key of the dict literal. *)
Module Summary.
Record t := {
  timestamp : string;
  total_questions : nat;
  models_configured_for_routing : list string;
  model_usage : gmap string nat;
  failed_questions : list Z;
  routing_insights : string
}.

(** [summary_data["model_usage"][model_used] =
     summary_data["model_usage"].get(model_used, 0) + 1] *)
Definition count_model (model_used : string) (s : t) : t :=
  {| timestamp := timestamp s;
     total_questions := total_questions s;
     models_configured_for_routing := models_configured_for_routing s;
     model_usage :=
       <[model_used := default 0 (model_usage s !! model_used) + 1]> (model_usage s);
     failed_questions := failed_questions s;
     routing_insights := routing_insights s |}.

(** [summary_data["failed_questions"].append(question_id)] *)
Definition add_failed (question_id : Z) (s : t) : t :=
  {| timestamp := timestamp s;
     total_questions := total_questions s;
     models_configured_for_routing := models_configured_for_routing s;
     model_usage := model_usage s;
     failed_questions := failed_questions s ++ [question_id];
     routing_insights := routing_insights s |}.

(** The dict as written; the order of the keys inside [model_usage] is
    not modelled. *)
Definition to_dict (s : t) : list (string * pyvalue) :=
  [("timestamp", PyStr (timestamp s));
   ("total_questions", PyInt (Z.of_nat (total_questions s)));
   ("models_configured_for_routing", PyList (PyStr <$> models_configured_for_routing s));
   ("model_usage",
    PyDict (prod_map id (λ n, PyInt (Z.of_nat n)) <$> map_to_list (model_usage s)));
   ("failed_questions", PyList (PyInt <$> failed_questions s));
   ("routing_insights", PyStr (routing_insights s))].
End Summary.

(** The [final_output] dict. *)
Module Report.
Record t := { results : list ResultEntry.t; summary : Summary.t }.

Definition to_dict (r : t) : list (string * pyvalue) :=
  [("results", PyList ((PyDict ∘ ResultEntry.to_dict) <$> results r));
   ("summary", PyDict (Summary.to_dict (summary r)))].
End Report.

(** ** main.py: the handler *)

(** [process_question(client, question_data, results, summary_data)]:
    the two shared objects are passed in and their new contents returned.
    [get_completion] is called with its default [retries=3, delay=2]. *)
Definition process_question (client : Service) (question_data : Question.t)
    (results : list ResultEntry.t) (summary_data : Summary.t)
    : list ResultEntry.t * Summary.t :=
  let question_id := Question.id question_data in
  let difficulty := Question.difficulty question_data in
  let question_text := Question.question question_data in
  let '(model_used, answer) := returned (get_completion client question_text 3 2) in
  if truthy model_used && truthy answer then
    let result_entry :=
      {| ResultEntry.id := question_id;
         ResultEntry.difficulty := difficulty;
         ResultEntry.question := question_text;
         ResultEntry.model_used := default "" model_used;
         ResultEntry.answer := default "" answer |} in
    (results ++ [result_entry],
     Summary.count_model (default "" model_used) summary_data)
  else
    (results, Summary.add_failed question_id summary_data).

(** ** main.py: the dispatcher *)

(** Where the coroutine [semaphored_process_question(q)] stands: waiting
    to enter [async with semaphore], inside it awaiting
    [process_question], or returned. *)
Inductive task_state := Pending | InFlight | Finished.

Global Instance task_state_eq_dec : EqDecision task_state.
Proof. solve_decision. Defined.

(** The state shared by the tasks of one [asyncio.gather]: the tasks in
    input order, the semaphore's counter, the two shared collections, and
    two logs kept for the statements below: the arguments of every
    [process_question] call so far, and the number of attempts (calls of
    [chat.completions.create]) made by the handlers that have returned. *)
Record dispatcher := Dispatcher {
  tasks : list (Question.t * task_state);
  semaphore : nat;
  benchmark_results : list ResultEntry.t;
  summary : Summary.t;
  calls : list Question.t;
  requests : nat
}.

(** The questions whose task is in a given state, in input order. *)
Definition selected (st : task_state) (l : list (Question.t * task_state))
    : list Question.t :=
  (filter (λ t, t.2 = st) l).*1.

Definition questions_in (st : task_state) (d : dispatcher) : list Question.t :=
  selected st (tasks d).

(** The number of [process_question] executions under way. *)
Definition in_flight (d : dispatcher) : nat := length (questions_in InFlight d).

Section Dispatch.
(** The remote service as it answers the call made for the task at each
    position of the input. *)
Variable remote : nat → Service.

(** The event loop resumes task [i]. A pending task enters the
    semaphore if its counter is positive and calls [process_question];
    a task in flight gets its answer, updates the shared collections
    (no suspension point lies between the return of [get_completion]
    and these updates) and releases the semaphore. Nothing else can
    run. *)
Definition advance (i : nat) (d : dispatcher) : option dispatcher :=
  match tasks d !! i with
  | Some (q, Pending) =>
    match semaphore d with
    | S value =>
      Some (Dispatcher (<[i := (q, InFlight)]> (tasks d)) value
              (benchmark_results d) (summary d) (calls d ++ [q]) (requests d))
    | O => None
    end
  | Some (q, InFlight) =>
    let '(results, summary_data) :=
      process_question (remote i) q (benchmark_results d) (summary d) in
    let sent := attempts (get_completion (remote i) (Question.question q) 3 2) in
    Some (Dispatcher (<[i := (q, Finished)]> (tasks d)) (S (semaphore d))
            results summary_data (calls d) (requests d + sent))
  | _ => None
  end.

Definition step (d d' : dispatcher) : Prop := ∃ i, advance i d = Some d'.

(** Running a schedule: the tasks resumed by the event loop, in order. *)
Fixpoint run (schedule : list nat) (d : dispatcher) : option dispatcher :=
  match schedule with
  | [] => Some d
  | i :: schedule' => d' ← advance i d; run schedule' d'
  end.
End Dispatch.

(** [tasks = [semaphored_process_question(q) for q in questions]] with a
    fresh [asyncio.Semaphore(limit)]. *)
Definition dispatch (limit : nat) (questions : list Question.t)
    (summary_data : Summary.t) : dispatcher :=
  Dispatcher (map (λ q, (q, Pending)) questions) limit [] summary_data [] 0.

(** The [await] of [asyncio.gather] over the tasks returns once every
    task has. *)
Definition gathered (d : dispatcher) : bool :=
  forallb (λ t, bool_decide (t.2 = Finished)) (tasks d).

(** ** main.py: sorting the results *)

(** [list.sort(key=...)] is a stable ascending sort by key; this is the
    stable insertion sort. *)
Fixpoint insert_by_key {A} (key : A → Z) (x : A) (l : list A) : list A :=
  match l with
  | [] => [x]
  | y :: l' =>
    if (key x <? key y)%Z then x :: y :: l' else y :: insert_by_key key x l'
  end.

Definition sort_by_key {A} (key : A → Z) (l : list A) : list A :=
  foldl (λ sorted x, insert_by_key key x sorted) [] l.

(** ** main.py: the orchestrator *)

(** What opening and parsing [questions-benchmark.json] gives. *)
Inductive input_file :=
  | FileNotFound
  | JSONDecodeError
  | Loaded (questions : list Question.t).

(** What [main] reads from outside: [os.getenv("OPEN_ROUTER_API_KEY")],
    the input file, [datetime.now().isoformat()], the remote service as
    it answers each task, and whether the output file can be written. *)
Record environment := Environment {
  OPEN_ROUTER_API_KEY : option string;
  questions_benchmark_json : input_file;
  now : string;
  openrouter : nat → Service;
  output_writable : bool
}.

(** What a run of [main] did: the [process_question] calls it made, the
    number of times it called [chat.completions.create], which is the
    only place where it talks to the remote service (each call is at
    least one request, and the SDK client may send it again), the report
    it assembled, and what it wrote to [OUTPUT_FILE_NAME], if it got
    that far. *)
Record execution := Execution {
  handler_calls : list Question.t;
  network_requests : nat;
  final_output : option Report.t;
  output_file : option pyvalue
}.

(** The early [return]s of [main]. *)
Definition aborted : execution := Execution [] 0 None None.

Definition initial_summary (timestamp : string) (questions : list Question.t)
    : Summary.t :=
  {| Summary.timestamp := timestamp;
     Summary.total_questions := length questions;
     Summary.models_configured_for_routing := MODELS_FOR_ROUTING;
     Summary.model_usage := ∅;
     Summary.failed_questions := [];
     Summary.routing_insights := "OpenRouter's model routing dynamically selects the best model from the configured list based on factors like availability, performance, and cost. The primary model is attempted first, with others serving as fallbacks or chosen by OpenRouter's internal logic if 'route: fallback' was used (though here we're explicitly listing fallbacks). The 'model_used' field in each result indicates which model ultimately provided the answer." |}.

(** [main()], run under a schedule of the event loop. The result is
    [None] when the schedule is not one the event loop can follow, or
    stops before [asyncio.gather] returns: such a schedule describes no
    run. *)
Definition main (env : environment) (schedule : list nat) : option execution :=
  if negb (truthy (OPEN_ROUTER_API_KEY env)) then Some aborted
  else
    match questions_benchmark_json env with
    | FileNotFound => Some aborted
    | JSONDecodeError => Some aborted
    | Loaded questions =>
      let summary_data := initial_summary (now env) questions in
      d ← run (openrouter env) schedule
            (dispatch CONCURRENT_REQUESTS questions summary_data);
      if gathered d then
        let sorted_results := sort_by_key ResultEntry.id (benchmark_results d) in
        let report :=
          {| Report.results := sorted_results; Report.summary := summary d |} in
        Some (Execution (calls d) (requests d) (Some report)
                (if output_writable env
                 then Some (PyDict (Report.to_dict report)) else None))
      else None
    end.

(** ** Notions used in the statements *)

(** The states the dispatcher can be in during a run over [questions]. *)
Definition reachable (remote : nat → Service) (limit : nat)
    (questions : list Question.t) (summary_data : Summary.t) (d : dispatcher) : Prop :=
  rtc (step remote) (dispatch limit questions summary_data) d.

(** The errors [get_completion] sleeps on and retries. *)
Definition retryable (o : api_outcome) : Prop :=
  o = RateLimitError ∨ o = APIConnectionError ∨ o = APIStatusError.

(** The delays slept when [n] attempts in a row are retried: each is
    twice the one before. *)
Fixpoint backoff (n : nat) (delay : Z) : list Z :=
  match n with
  | O => []
  | S n' => delay :: backoff n' (delay * 2)%Z
  end.

(** Reading a written report back: the [id] of a written result, the
    ids of a written list of results in order, and the ids of the
    [results] of a written report. They are undefined on a value that
    is not laid out as a report. *)
Definition result_id (r : pyvalue) : option Z :=
  match r with
  | PyDict items =>
    match dict_get "id" items with
    | Some (PyInt n) => Some n
    | _ => None
    end
  | _ => None
  end.

Fixpoint result_ids (results : list pyvalue) : option (list Z) :=
  match results with
  | [] => Some []
  | r :: results' =>
    match result_id r, result_ids results' with
    | Some n, Some ids => Some (n :: ids)
    | _, _ => None
    end
  end.

Definition written_result_ids (v : pyvalue) : option (list Z) :=
  match v with
  | PyDict items =>
    match dict_get "results" items with
    | Some (PyList results) => result_ids results
    | _ => None
    end
  | _ => None
  end.

(** How many result entries name [model]. *)
Definition uses (model : string) (results : list ResultEntry.t) : nat :=
  length (filter (λ e, ResultEntry.model_used e = model) results).

Definition ascending (ids : list Z) : Prop := Sorted Z.le ids.

(** The resumptions still needed before [gather] returns: two for a
    pending task, one for a task in flight. *)
Definition remaining_work (d : dispatcher) : nat :=
  2 * length (questions_in Pending d) + length (questions_in InFlight d).

(** ** A small run: three questions, the second of which is never answered *)

Definition example_questions : list Question.t :=
  [Question.Build_t 1 "easy" "What is 2 + 2?";
   Question.Build_t 2 "medium" "Why is the sky blue?";
   Question.Build_t 3 "hard" "Is P equal to NP?"].

Definition example_service : nat → Service := λ task _ _ _,
  match task with
  | 1 => RateLimitError
  | _ =>
    Completion (ChatCompletion.Build_t "m1"
      [ChatCompletion.Build_Choice (ChatCompletion.Build_Message (Some "an answer"))])
  end.

Definition example_env : environment :=
  Environment (Some "key") (Loaded example_questions) "2025-01-01T00:00:00"
    example_service true.

(** All three tasks enter the semaphore; the third returns first, then
    the second, then the first. *)
Definition example_schedule : list nat := [0; 1; 2; 2; 1; 0].

(** The report of that run, whatever the order in which its tasks
    return. *)
Definition example_report : Report.t :=
  {| Report.results :=
       [ResultEntry.Build_t 1 "easy" "What is 2 + 2?" "m1" "an answer";
        ResultEntry.Build_t 3 "hard" "Is P equal to NP?" "m1" "an answer"];
     Report.summary :=
       Summary.add_failed 2
         (Summary.count_model "m1"
            (Summary.count_model "m1"
               (initial_summary "2025-01-01T00:00:00" example_questions))) |}.

(** Five attempts are made: one for each answered question, three for
    the other. *)
Definition example_execution : execution :=
  Execution example_questions 5 (Some example_report)
    (Some (PyDict (Report.to_dict example_report))).

(** ** A burst: six questions, one more than the semaphore admits *)

Definition burst_questions : list Question.t :=
  (λ n, Question.Build_t (Z.of_nat n) "easy" "What is 2 + 2?") <$> seq 1 6.

Definition burst_env : environment :=
  Environment (Some "key") (Loaded burst_questions) "2025-01-01T00:00:00"
    example_service true.

(** The first five tasks have entered the semaphore, the sixth waits. *)
Definition burst_state : dispatcher :=
  Dispatcher
    (((λ q, (q, InFlight)) <$> take 5 burst_questions)
     ++ ((λ q, (q, Pending)) <$> drop 5 burst_questions))
    0 [] (initial_summary "2025-01-01T00:00:00" burst_questions)
    (take 5 burst_questions) 0.

(** ** An environment without the API key *)

Definition keyless_env : environment :=
  Environment None (Loaded example_questions) "2025-01-01T00:00:00"
    example_service true.

(** The keys of the [summary] dict literal of [main]. *)
Definition summary_keys : list string :=
  ["timestamp"; "total_questions"; "models_configured_for_routing";
   "model_usage"; "failed_questions"; "routing_insights"].

(** The five fields the specification's data model lists for the
    summary. *)
Definition listed_summary_keys : list string :=
  ["timestamp"; "total_questions"; "models_configured_for_routing";
   "model_usage"; "failed_questions"].

(** What holds of the dispatcher between any two steps of a run over
    [questions] started with [limit] permits and an empty summary: the
    tasks are the input questions; the permits held and the permits left
    add up to [limit]; the handler was called for the tasks that left
    [Pending], once each; the answered and the failed ids are the ids of
    the finished tasks; the usage counts are the counts over the results. *)
Record dispatch_inv (limit : nat) (questions : list Question.t) (d : dispatcher)
    : Prop := DispatchInv {
  inv_questions : (tasks d).*1 = questions;
  inv_semaphore : semaphore d + in_flight d = limit;
  inv_calls : calls d ≡ₚ questions_in InFlight d ++ questions_in Finished d;
  inv_accounted :
    (ResultEntry.id <$> benchmark_results d) ++ Summary.failed_questions (summary d)
    ≡ₚ Question.id <$> questions_in Finished d;
  inv_usage : ∀ model,
    Summary.model_usage (summary d) !! model
    = if decide (uses model (benchmark_results d) = 0) then None
      else Some (uses model (benchmark_results d));
  inv_total : Summary.total_questions (summary d) = length questions
}.

(** ** Further notions: the client *)

(** The outcomes on which the loop of [get_completion] breaks: an
    exception of another class, or a response whose [choices] is empty,
    on which [choices[0]] raises [IndexError]. *)
Definition aborts (o : api_outcome) : Prop :=
  o = UnexpectedError
  ∨ ∃ completion, o = Completion completion ∧ ChatCompletion.choices completion = [].

(** A service that is unreachable twice and then answers. *)
Definition flaky_service : Service := λ _ _ attempt,
  match attempt with
  | 0 => APIConnectionError
  | 1 => APIStatusError
  | _ =>
    Completion (ChatCompletion.Build_t "m2"
      [ChatCompletion.Build_Choice (ChatCompletion.Build_Message (Some "four"))])
  end.

(** A service that is down. *)
Definition down_service : Service := λ _ _ attempt,
  match attempt with
  | 0 => RateLimitError
  | 1 => APIConnectionError
  | _ => APIStatusError
  end.

(** A service that is rate-limited once and then answers without any
    choice. *)
Definition hollow_service : Service := λ _ _ attempt,
  match attempt with
  | 0 => RateLimitError
  | _ => Completion (ChatCompletion.Build_t "m2" [])
  end.

(** ** Further notions: the handler and the dispatcher *)

(** What one call of [process_question] adds to the result list: the
    entry for the question, or nothing. *)
Definition answers (client : Service) (q : Question.t) : list ResultEntry.t :=
  (process_question client q [] (initial_summary "" [])).1.

(** What the finished tasks have added to the result list, in input
    order; [k] is the position of the first task of [l]. *)
Fixpoint finished_results (remote : nat → Service) (k : nat)
    (l : list (Question.t * task_state)) : list ResultEntry.t :=
  match l with
  | [] => []
  | (q, st) :: l' =>
    (if decide (st = Finished) then answers (remote k) q else [])
    ++ finished_results remote (S k) l'
  end.

(** The sum of the counts of [model_usage]. *)
Definition usage_total (usage : gmap string nat) : nat :=
  map_fold (λ _ count total, count + total) 0 usage.

(** More of what holds between any two steps of a run started from
    [summary0]: every finished task has made between one and three
    attempts; the results are those of the finished tasks; the usage
    counts add up to the number of results; the handlers leave the
    timestamp, the configured models and the routing text alone. *)
Record ledger_inv (remote : nat → Service) (summary0 : Summary.t) (d : dispatcher)
    : Prop := LedgerInv {
  inv_requests_min : (length (questions_in Finished d) ≤ requests d)%nat;
  inv_requests_max : (requests d ≤ 3 * length (questions_in Finished d))%nat;
  inv_results : benchmark_results d ≡ₚ finished_results remote 0 (tasks d);
  inv_usage_total :
    usage_total (Summary.model_usage (summary d)) = length (benchmark_results d);
  inv_timestamp : Summary.timestamp (summary d) = Summary.timestamp summary0;
  inv_models :
    Summary.models_configured_for_routing (summary d)
    = Summary.models_configured_for_routing summary0;
  inv_insights : Summary.routing_insights (summary d) = Summary.routing_insights summary0
}.

(** An environment whose key is set to the empty string. *)
Definition empty_key_env : environment :=
  Environment (Some "") (Loaded example_questions) "2025-01-01T00:00:00"
    example_service true.

(** An environment whose question file is an empty list. *)
Definition no_questions_env : environment :=
  Environment (Some "key") (Loaded []) "2025-01-01T00:00:00" example_service true.

(** Another order for the three-question run: each task returns before
    the next one enters the semaphore. *)
Definition sequential_schedule : list nat := [0; 0; 1; 1; 2; 2].

(** The keys of the dict [process_question] builds for a result. *)
Definition result_keys : list string :=
  ["id"; "difficulty"; "question"; "model_used"; "answer"].

(** * The client *)

Section Client.
Local Open Scope Z_scope.

(** A loop whose every attempt is retried uses all its attempts, sleeps
    after each of them, and gives up. *)
Lemma attempt_loop_retried request n :
  ∀ attempt delay,
    (∀ k, (attempt ≤ k < attempt + n)%nat → retryable (request k)) →
    attempt_loop request n attempt delay
    = CompletionRun (None, None) n (backoff n delay).
Proof.
  induction n as [|n IH]; intros attempt delay Hretry; [reflexivity|].
  assert (Hnext : attempt_loop request n (S attempt) (delay * 2)
                  = CompletionRun (None, None) n (backoff n (delay * 2))).
  { apply IH. intros k Hk. apply Hretry. lia. }
  cbn [attempt_loop backoff].
  destruct (Hretry attempt ltac:(lia)) as [-> | [-> | ->]];
    rewrite Hnext; reflexivity.
Qed.

(** The loop never makes more attempts than it was allowed. *)
Lemma attempts_bounded request n :
  ∀ attempt delay, (attempts (attempt_loop request n attempt delay) ≤ n)%nat.
Proof.
  induction n as [|n IH]; intros attempt delay; cbn; [lia|].
  specialize (IH (S attempt) (delay * 2)).
  destruct (request attempt) as [c| | | |]; cbn; try lia.
  destruct (ChatCompletion.choices c); cbn; lia.
Qed.

(** It sleeps only after an attempt, so never more often than it made one. *)
Lemma sleeps_bounded request n :
  ∀ attempt delay,
    (length (sleeps (attempt_loop request n attempt delay))
     ≤ attempts (attempt_loop request n attempt delay))%nat.
Proof.
  induction n as [|n IH]; intros attempt delay; cbn; [lia|].
  specialize (IH (S attempt) (delay * 2)).
  destruct (request attempt) as [c| | | |]; cbn; try lia.
  destruct (ChatCompletion.choices c); cbn; lia.
Qed.

(** C2. Whatever the prompt and the initial delay, when every attempt
    of the call is answered with a rate-limit error and [retries] is 3,
    [get_completion] returns [(None, None)] and has made exactly 3
    attempts. *)
Theorem get_completion_exhausted (service : Service) (prompt : string) (delay : Z)
    (Hlimited : ∀ attempt, create service prompt attempt = RateLimitError) :
  returned (get_completion service prompt 3 delay) = (None, None)
  ∧ attempts (get_completion service prompt 3 delay) = 3%nat.
Proof.
  unfold get_completion.
  rewrite (attempt_loop_retried _ (Z.to_nat 3) 0%nat delay).
  - split; reflexivity.
  - intros k _. left. apply Hlimited.
Qed.

Lemma get_completion_exhausted_witness :
  let service : Service := λ _ _ _, RateLimitError in
  (∀ attempt, create service "What is 2 + 2?" attempt = RateLimitError)
  ∧ returned (get_completion service "What is 2 + 2?" 3 2) = (None, None)
  ∧ attempts (get_completion service "What is 2 + 2?" 3 2) = 3%nat.
Proof.
  intros service.
  split; [intros attempt; reflexivity|].
  apply (get_completion_exhausted service "What is 2 + 2?" 2).
  intros attempt; reflexivity.
Defined.

(** C3. With [retries = 3] and [delay = 2], when attempts 1 and 2 are
    answered with a rate-limit error and attempt 3 with a response that
    has a first choice, [get_completion] returns the response's model
    name and the text of that choice; it has slept 2 and then 4 seconds,
    so at least 6 seconds of backoff precede the success. *)
Theorem get_completion_third_attempt (service : Service) (prompt : string)
    (completion : ChatCompletion.t) (choice : ChatCompletion.Choice)
    (others : list ChatCompletion.Choice)
    (Hfirst : create service prompt 0 = RateLimitError)
    (Hsecond : create service prompt 1 = RateLimitError)
    (Hthird : create service prompt 2 = Completion completion)
    (Hchoice : ChatCompletion.choices completion = choice :: others) :
  let r := get_completion service prompt 3 2 in
  returned r
  = (Some (ChatCompletion.model completion),
     ChatCompletion.content (ChatCompletion.message choice))
  ∧ attempts r = 3%nat
  ∧ sleeps r = [2; 4]
  ∧ 2 + 4 ≤ total_backoff r.
Proof.
  unfold get_completion. change (Z.to_nat 3) with 3%nat.
  cbn [attempt_loop]. rewrite Hfirst, Hsecond, Hthird, Hchoice.
  cbn. repeat split; lia.
Qed.

Lemma get_completion_third_attempt_witness :
  let choice := ChatCompletion.Build_Choice (ChatCompletion.Build_Message (Some "4")) in
  let completion := ChatCompletion.Build_t "m1" [choice] in
  let service : Service := λ _ _ attempt,
    match attempt with 2%nat => Completion completion | _ => RateLimitError end in
  returned (get_completion service "What is 2 + 2?" 3 2) = (Some "m1", Some "4")
  ∧ total_backoff (get_completion service "What is 2 + 2?" 3 2) = 6.
Proof.
  intros choice completion service.
  destruct (get_completion_third_attempt service "What is 2 + 2?"
              completion choice [] eq_refl eq_refl eq_refl eq_refl)
    as (Hret & _ & Hsleeps & _).
  split; [exact Hret|].
  unfold total_backoff. rewrite Hsleeps. reflexivity.
Defined.

(** C4. When the first attempt raises an error that is neither a
    rate-limit error nor a connection or status error, [get_completion]
    does not retry: it returns [(None, None)] having made exactly 1
    attempt and slept not at all. *)
Theorem get_completion_unexpected_error (service : Service) (prompt : string)
    (retries delay : Z)
    (Hretries : 1 ≤ retries)
    (Hraised : create service prompt 0 = UnexpectedError) :
  let r := get_completion service prompt retries delay in
  returned r = (None, None) ∧ attempts r = 1%nat ∧ sleeps r = [].
Proof.
  unfold get_completion.
  destruct (Z.to_nat retries) as [|n] eqn:Hn; [lia|].
  cbn [attempt_loop]. rewrite Hraised. repeat split.
Qed.

Lemma get_completion_unexpected_error_witness :
  let service : Service := λ _ _ _, UnexpectedError in
  let r := get_completion service "What is 2 + 2?" 3 2 in
  returned r = (None, None) ∧ attempts r = 1%nat ∧ sleeps r = [].
Proof.
  intros service.
  apply (get_completion_unexpected_error service "What is 2 + 2?" 3 2);
    [lia | reflexivity].
Defined.
End Client.

(** * The handler *)

(** [process_question] does one of two things. *)
Lemma process_question_cases client q results summary_data :
  (∃ e, ResultEntry.id e = Question.id q
        ∧ process_question client q results summary_data
          = (results ++ [e], Summary.count_model (ResultEntry.model_used e) summary_data))
  ∨ process_question client q results summary_data
    = (results, Summary.add_failed (Question.id q) summary_data).
Proof.
  unfold process_question.
  destruct (returned _) as [model_used answer].
  destruct (truthy model_used && truthy answer); [left|right; reflexivity].
  exists {| ResultEntry.id := Question.id q;
            ResultEntry.difficulty := Question.difficulty q;
            ResultEntry.question := Question.question q;
            ResultEntry.model_used := default "" model_used;
            ResultEntry.answer := default "" answer |}.
  split; reflexivity.
Qed.

(** C10. When [get_completion] returns an empty answer text, or an empty
    model name, [process_question] records the question as failed: its id
    is appended to [failed_questions] and [results] is left as it was. *)
Theorem process_question_empty_is_failure (client : Service) (q : Question.t)
    (results : list ResultEntry.t) (summary_data : Summary.t)
    (model_used answer : option string)
    (Hreturned : returned (get_completion client (Question.question q) 3 2)
                 = (model_used, answer))
    (Hempty : answer = Some "" ∨ model_used = Some "") :
  let outcome := process_question client q results summary_data in
  outcome.1 = results
  ∧ Summary.failed_questions outcome.2
    = Summary.failed_questions summary_data ++ [Question.id q]
  ∧ Summary.model_usage outcome.2 = Summary.model_usage summary_data.
Proof.
  unfold process_question. rewrite Hreturned.
  assert (truthy model_used && truthy answer = false) as ->.
  { destruct Hempty as [-> | ->]; cbn; [apply andb_false_r | reflexivity]. }
  repeat split.
Qed.

Lemma process_question_empty_is_failure_witness :
  let choice := ChatCompletion.Build_Choice (ChatCompletion.Build_Message (Some "")) in
  let client : Service := λ _ _ _, Completion (ChatCompletion.Build_t "m1" [choice]) in
  let q := Question.Build_t 7 "easy" "What is 2 + 2?" in
  let summary_data := initial_summary "2025-01-01T00:00:00" [q] in
  let outcome := process_question client q [] summary_data in
  returned (get_completion client (Question.question q) 3 2) = (Some "m1", Some "")
  ∧ outcome.1 = []
  ∧ Summary.failed_questions outcome.2 = [7%Z]
  ∧ Summary.model_usage outcome.2 = ∅.
Proof.
  intros choice client q summary_data outcome.
  split; [reflexivity|].
  exact (process_question_empty_is_failure client q [] summary_data
           (Some "m1") (Some "") eq_refl (or_introl eq_refl)).
Defined.

(** * The dispatcher *)

(** ** Moving one task from a state to another *)

Section Selected.
Implicit Types (l : list (Question.t * task_state)) (q : Question.t).
Implicit Types (a b c : task_state).

Lemma selected_cons q a b l :
  selected b ((q, a) :: l) = if decide (a = b) then q :: selected b l else selected b l.
Proof.
  unfold selected. rewrite filter_cons. cbn.
  destruct (decide (a = b)); reflexivity.
Qed.

Lemma insert_keeps_questions l i q a b :
  l !! i = Some (q, a) → (<[i := (q, b)]> l).*1 = l.*1.
Proof.
  intros Hi. rewrite list_fmap_insert. cbn.
  apply list_insert_id. rewrite list_lookup_fmap, Hi. reflexivity.
Qed.

Lemma selected_arrive l : ∀ i q a b,
  l !! i = Some (q, a) → a ≠ b →
  selected b (<[i := (q, b)]> l) ≡ₚ q :: selected b l.
Proof.
  induction l as [|[q' a'] l IH]; intros [|i] q a b Hi Hab; try discriminate.
  - cbn in Hi. injection Hi as -> ->. cbn [insert list_insert].
    rewrite !selected_cons. destruct (decide (b = b)); [|congruence].
    destruct (decide (a = b)); [congruence|]. reflexivity.
  - cbn in Hi. cbn [insert list_insert]. rewrite !selected_cons.
    specialize (IH i q a b Hi Hab).
    destruct (decide (a' = b)).
    + change (<[i:=(q, b)]> l) with (list_insert i (q, b) l) in IH.
      rewrite IH. apply perm_swap.
    + exact IH.
Qed.

Lemma selected_leave l : ∀ i q a b,
  l !! i = Some (q, a) → a ≠ b →
  selected a l ≡ₚ q :: selected a (<[i := (q, b)]> l).
Proof.
  induction l as [|[q' a'] l IH]; intros [|i] q a b Hi Hab; try discriminate.
  - cbn in Hi. injection Hi as -> ->. cbn [insert list_insert].
    rewrite !selected_cons. destruct (decide (a = a)); [|congruence].
    destruct (decide (b = a)); [congruence|]. reflexivity.
  - cbn in Hi. cbn [insert list_insert]. rewrite !selected_cons.
    specialize (IH i q a b Hi Hab).
    destruct (decide (a' = a)).
    + change (<[i:=(q, b)]> l) with (list_insert i (q, b) l) in IH.
      rewrite IH. apply perm_swap.
    + exact IH.
Qed.

Lemma selected_other l : ∀ i q a b c,
  l !! i = Some (q, a) → c ≠ a → c ≠ b →
  selected c (<[i := (q, b)]> l) = selected c l.
Proof.
  induction l as [|[q' a'] l IH]; intros [|i] q a b c Hi Hca Hcb; try discriminate.
  - cbn in Hi. injection Hi as -> ->. cbn [insert list_insert].
    rewrite !selected_cons.
    destruct (decide (b = c)); [congruence|].
    destruct (decide (a = c)); [congruence|]. reflexivity.
  - cbn in Hi. cbn [insert list_insert]. rewrite !selected_cons.
    specialize (IH i q a b c Hi Hca Hcb).
    destruct (decide (a' = c)); [f_equal|]; exact IH.
Qed.

(** Every task of a fresh dispatcher is pending. *)
Lemma selected_fresh (questions : list Question.t) st :
  selected st (map (λ q, (q, Pending)) questions)
  = if decide (st = Pending) then questions else [].
Proof.
  induction questions as [|q qs IH]; [destruct (decide _); reflexivity|].
  cbn [map]. rewrite selected_cons, IH.
  destruct (decide (Pending = st)), (decide (st = Pending)); congruence.
Qed.

Lemma fresh_questions (questions : list Question.t) :
  (map (λ q, (q, Pending)) questions).*1 = questions.
Proof. induction questions as [|q qs IH]; cbn; [reflexivity | f_equal; exact IH]. Qed.

(** Once [gather] returns, every task is finished. *)
Lemma selected_all_finished l st :
  forallb (λ t, bool_decide (t.2 = Finished)) l = true →
  selected st l = if decide (st = Finished) then l.*1 else [].
Proof.
  induction l as [|[q a] l IH]; cbn [forallb]; intros Hall.
  - destruct (decide _); reflexivity.
  - apply andb_prop in Hall as [Ha Hl]. apply bool_decide_eq_true in Ha.
    cbn in Ha. subst a. rewrite selected_cons, (IH Hl).
    destruct (decide (Finished = st)), (decide (st = Finished)); try congruence.
    reflexivity.
Qed.
End Selected.

(** ** The invariant *)

Section Invariant.
Variable remote : nat → Service.
Variable limit : nat.
Variable questions : list Question.t.

(** The two kinds of step. *)
Lemma advance_cases i d d' :
  advance remote i d = Some d' →
  (∃ q value,
      tasks d !! i = Some (q, Pending) ∧ semaphore d = S value
      ∧ d' = Dispatcher (<[i := (q, InFlight)]> (tasks d)) value
               (benchmark_results d) (summary d) (calls d ++ [q]) (requests d))
  ∨ (∃ q,
      tasks d !! i = Some (q, InFlight)
      ∧ d' = Dispatcher (<[i := (q, Finished)]> (tasks d)) (S (semaphore d))
               (process_question (remote i) q (benchmark_results d) (summary d)).1
               (process_question (remote i) q (benchmark_results d) (summary d)).2
               (calls d)
               (requests d
                + attempts (get_completion (remote i) (Question.question q) 3 2))).
Proof.
  unfold advance. intros Hadv.
  destruct (tasks d !! i) as [[q [| |]]|] eqn:Hi; try discriminate.
  - destruct (semaphore d) as [|value] eqn:Hsem; [discriminate|].
    left. exists q, value. injection Hadv as <-. auto.
  - right. exists q.
    destruct (process_question _ _ _ _) as [results summary_data].
    injection Hadv as <-. auto.
Qed.

Lemma uses_snoc model results e :
  uses model (results ++ [e])
  = uses model results + (if decide (ResultEntry.model_used e = model) then 1 else 0).
Proof.
  unfold uses. rewrite filter_app, length_app, filter_cons, filter_nil.
  destruct (decide _); reflexivity.
Qed.

Lemma dispatch_inv_initial summary_data :
  Summary.model_usage summary_data = ∅ →
  Summary.failed_questions summary_data = [] →
  Summary.total_questions summary_data = length questions →
  dispatch_inv limit questions (dispatch limit questions summary_data).
Proof.
  intros Husage Hfailed Htotal.
  split; unfold in_flight, questions_in;
    cbn [tasks semaphore calls benchmark_results summary dispatch];
    rewrite ?selected_fresh; repeat case_decide; try discriminate; cbn.
  - apply fresh_questions.
  - lia.
  - reflexivity.
  - rewrite Hfailed. reflexivity.
  - intros model. rewrite Husage. apply lookup_empty.
  - exact Htotal.
Qed.

Lemma dispatch_inv_advance i d d' :
  dispatch_inv limit questions d →
  advance remote i d = Some d' →
  dispatch_inv limit questions d'.
Proof.
  intros [Hqs Hsem Hcalls Hacc Husage Htotal] Hadv.
  unfold in_flight, questions_in in *.
  destruct (advance_cases _ _ _ Hadv) as [(q & value & Hi & Hvalue & ->)|(q & Hi & ->)].
  - (* the task enters the semaphore *)
    split; unfold in_flight, questions_in;
      cbn [tasks semaphore calls benchmark_results summary requests].
    + rewrite (insert_keeps_questions _ _ _ _ _ Hi). exact Hqs.
    + rewrite (selected_arrive _ _ _ _ _ Hi) by discriminate. cbn. lia.
    + rewrite (selected_arrive _ _ _ _ _ Hi) by discriminate.
      rewrite (selected_other _ _ _ _ _ Finished Hi) by discriminate.
      rewrite Hcalls. cbn. symmetry. apply Permutation_cons_append.
    + rewrite (selected_other _ _ _ _ _ Finished Hi) by discriminate. exact Hacc.
    + exact Husage.
    + exact Htotal.
  - (* the task returns *)
    pose proof (selected_leave _ _ _ _ Finished Hi ltac:(discriminate)) as Hleave.
    pose proof (selected_arrive _ _ _ _ Finished Hi ltac:(discriminate)) as Harrive.
    split; unfold in_flight, questions_in;
      cbn [tasks semaphore calls benchmark_results summary requests].
    + rewrite (insert_keeps_questions _ _ _ _ _ Hi). exact Hqs.
    + rewrite Hleave in Hsem. cbn in Hsem. lia.
    + rewrite Hcalls, Hleave, Harrive. cbn. apply Permutation_middle.
    + rewrite Harrive. cbn.
      destruct (process_question_cases (remote i) q (benchmark_results d) (summary d))
        as [(e & He & ->) | ->]; cbn.
      * rewrite fmap_app. cbn. rewrite He, <- Hacc.
        rewrite <- app_assoc. cbn. symmetry. apply Permutation_middle.
      * rewrite app_assoc, Hacc. symmetry. apply Permutation_cons_append.
    + intros model.
      destruct (process_question_cases (remote i) q (benchmark_results d) (summary d))
        as [(e & He & ->) | ->];
        cbn [fst snd Summary.model_usage Summary.count_model Summary.add_failed];
        [|apply Husage].
      rewrite uses_snoc.
      destruct (decide (ResultEntry.model_used e = model)) as [->|Hne].
      * rewrite lookup_insert_eq, Husage.
        destruct (decide (uses _ _ = 0)) as [->|Hpos]; cbn.
        -- reflexivity.
        -- destruct (decide (_ + 1 = 0)); [lia|reflexivity].
      * rewrite lookup_insert_ne by exact Hne. rewrite Husage.
        rewrite Nat.add_0_r. reflexivity.
    + destruct (process_question_cases (remote i) q (benchmark_results d) (summary d))
        as [(e & He & ->) | ->]; exact Htotal.
Qed.

Lemma dispatch_inv_step d d' :
  dispatch_inv limit questions d → step remote d d' → dispatch_inv limit questions d'.
Proof. intros Hinv [i Hadv]. exact (dispatch_inv_advance i d d' Hinv Hadv). Qed.

Lemma dispatch_inv_steps d d' :
  dispatch_inv limit questions d → rtc (step remote) d d' →
  dispatch_inv limit questions d'.
Proof. intros Hinv Hsteps. induction Hsteps; eauto using dispatch_inv_step. Qed.

(** A schedule that can be followed is a sequence of steps. *)
Lemma run_steps schedule : ∀ d d',
  run remote schedule d = Some d' → rtc (step remote) d d'.
Proof.
  induction schedule as [|i schedule IH]; cbn; intros d d' Hrun.
  - injection Hrun as ->. apply rtc_refl.
  - destruct (advance remote i d) as [d1|] eqn:Hadv; [|discriminate].
    cbn in Hrun. eapply rtc_l; [exists i; exact Hadv | apply IH, Hrun].
Qed.

Lemma run_app schedule1 : ∀ schedule2 d d1 d2,
  run remote schedule1 d = Some d1 → run remote schedule2 d1 = Some d2 →
  run remote (schedule1 ++ schedule2) d = Some d2.
Proof.
  induction schedule1 as [|i schedule1 IH]; cbn; intros schedule2 d d1 d2 H1 H2.
  - injection H1 as ->. exact H2.
  - destruct (advance remote i d) as [d'|]; [|discriminate]. cbn in *. eauto.
Qed.
End Invariant.

(** ** Every run can be completed *)

Section Completion.
Variable remote : nat → Service.
Variable limit : nat.
Variable questions : list Question.t.
Hypothesis limit_positive : (0 < limit)%nat.

Lemma selected_lookup (l : list (Question.t * task_state)) q st :
  q ∈ selected st l → ∃ i, l !! i = Some (q, st).
Proof.
  unfold selected. intros Hq.
  apply list_elem_of_fmap in Hq as ([q' st'] & -> & Hin).
  apply list_elem_of_filter in Hin as [Hst Hin]. cbn in Hst. subst st'.
  apply list_elem_of_lookup in Hin. exact Hin.
Qed.

Lemma nothing_left (l : list (Question.t * task_state)) :
  selected Pending l = [] → selected InFlight l = [] →
  forallb (λ t, bool_decide (t.2 = Finished)) l = true.
Proof.
  induction l as [|[q st] l IH]; [reflexivity|].
  rewrite !selected_cons. intros Hp Hf.
  destruct st; repeat case_decide; try discriminate; try congruence.
  cbn. apply IH; assumption.
Qed.

Lemma advance_pending i d q value :
  tasks d !! i = Some (q, Pending) → semaphore d = S value →
  advance remote i d
  = Some (Dispatcher (<[i := (q, InFlight)]> (tasks d)) value
            (benchmark_results d) (summary d) (calls d ++ [q]) (requests d)).
Proof. unfold advance. intros -> ->. reflexivity. Qed.

Lemma advance_in_flight i d q :
  tasks d !! i = Some (q, InFlight) → ∃ d',
    advance remote i d = Some d'
    ∧ tasks d' = <[i := (q, Finished)]> (tasks d).
Proof.
  unfold advance. intros ->.
  destruct (process_question _ _ _ _) as [results summary_data].
  eexists. split; reflexivity.
Qed.

(** From any state of a run, resuming tasks in a suitable order makes
    [gather] return. *)
Lemma can_complete (n : nat) : ∀ d,
  dispatch_inv limit questions d → (remaining_work d ≤ n)%nat →
  ∃ schedule d', run remote schedule d = Some d' ∧ gathered d' = true.
Proof.
  induction n as [|n IH]; intros d Hinv Hwork;
    unfold remaining_work, questions_in in Hwork.
  - exists [], d. split; [reflexivity|]. apply nothing_left.
    + destruct (selected Pending (tasks d)); [reflexivity | cbn in Hwork; lia].
    + destruct (selected InFlight (tasks d)); [reflexivity | cbn in Hwork; lia].
  - destruct (selected InFlight (tasks d)) as [|q running] eqn:Hrunning.
    + destruct (selected Pending (tasks d)) as [|q waiting] eqn:Hwaiting.
      { exists [], d. split; [reflexivity|]. apply nothing_left; assumption. }
      destruct (selected_lookup (tasks d) q Pending) as [i Hi].
      { rewrite Hwaiting. apply list_elem_of_here. }
      pose proof (inv_semaphore _ _ _ Hinv) as Hsem.
      unfold in_flight, questions_in in Hsem. rewrite Hrunning in Hsem. cbn in Hsem.
      destruct (semaphore d) as [|value] eqn:Hvalue; [lia|].
      pose proof (advance_pending i d q value Hi Hvalue) as Hadv.
      destruct (IH _ (dispatch_inv_advance remote limit questions i d _ Hinv Hadv))
        as (schedule & d' & Hrun & Hdone).
      { unfold remaining_work, questions_in. cbn [tasks].
        pose proof (selected_leave _ _ _ _ InFlight Hi ltac:(discriminate)) as Hleave.
        pose proof (selected_arrive _ _ _ _ InFlight Hi ltac:(discriminate)) as Harrive.
        apply Permutation_length in Hleave, Harrive.
        rewrite Hwaiting in Hleave. rewrite Hrunning in Harrive.
        cbn in Hleave, Harrive, Hwork. lia. }
      exists (i :: schedule), d'. split; [|exact Hdone].
      cbn [run]. rewrite Hadv. exact Hrun.
    + destruct (selected_lookup (tasks d) q InFlight) as [i Hi].
      { rewrite Hrunning. apply list_elem_of_here. }
      destruct (advance_in_flight i d q Hi) as (d1 & Hadv & Htasks).
      destruct (IH _ (dispatch_inv_advance remote limit questions i d _ Hinv Hadv))
        as (schedule & d' & Hrun & Hdone).
      { unfold remaining_work, questions_in. rewrite Htasks.
        pose proof (selected_leave _ _ _ _ Finished Hi ltac:(discriminate)) as Hleave.
        apply Permutation_length in Hleave. rewrite Hrunning in Hleave.
        rewrite (selected_other _ _ _ _ _ Pending Hi) by discriminate.
        cbn in Hleave, Hwork. lia. }
      exists (i :: schedule), d'. split; [|exact Hdone].
      cbn [run]. rewrite Hadv. exact Hrun.
Qed.

End Completion.


(** * Sorting the results *)

Section Sorting.
Context {A : Type} (key : A → Z).

Lemma insert_by_key_perm x l : insert_by_key key x l ≡ₚ x :: l.
Proof.
  induction l as [|y l IH]; cbn; [reflexivity|].
  destruct (key x <? key y)%Z; [reflexivity|].
  rewrite IH. apply perm_swap.
Qed.

Lemma sort_from_perm l : ∀ sorted,
  foldl (λ sorted x, insert_by_key key x sorted) sorted l ≡ₚ sorted ++ l.
Proof.
  induction l as [|x l IH]; intros sorted; cbn.
  - rewrite app_nil_r. reflexivity.
  - rewrite IH, insert_by_key_perm. apply Permutation_middle.
Qed.

Lemma sort_by_key_perm l : sort_by_key key l ≡ₚ l.
Proof. unfold sort_by_key. rewrite sort_from_perm. reflexivity. Qed.

Lemma insert_by_key_sorted x l :
  Sorted Z.le (key <$> l) → Sorted Z.le (key <$> insert_by_key key x l).
Proof.
  induction l as [|y l IH]; cbn; intros Hsorted.
  - repeat constructor.
  - destruct (key x <? key y)%Z eqn:Hlt.
    + cbn. constructor; [exact Hsorted|]. constructor. lia.
    + cbn. apply Sorted_inv in Hsorted as [Hl Hy].
      constructor; [apply IH, Hl|].
      destruct l as [|z l]; cbn in *.
      * constructor. lia.
      * destruct (key x <? key z)%Z; cbn; constructor;
          [lia | apply HdRel_inv in Hy; exact Hy].
Qed.

Lemma sort_from_sorted l : ∀ sorted,
  Sorted Z.le (key <$> sorted) →
  Sorted Z.le (key <$> foldl (λ sorted x, insert_by_key key x sorted) sorted l).
Proof.
  induction l as [|x l IH]; intros sorted Hsorted; cbn; [exact Hsorted|].
  apply IH, insert_by_key_sorted, Hsorted.
Qed.

Lemma sort_by_key_sorted l : Sorted Z.le (key <$> sort_by_key key l).
Proof. apply sort_from_sorted. constructor. Qed.
End Sorting.

(** * The orchestrator *)

Section Orchestrator.
Implicit Types (env : environment) (schedule : list nat) (e : execution).
Implicit Types (rep : Report.t) (qs : list Question.t) (d : dispatcher).

Lemma initial_summary_inv limit timestamp qs :
  dispatch_inv limit qs (dispatch limit qs (initial_summary timestamp qs)).
Proof. apply dispatch_inv_initial; reflexivity. Qed.

Lemma reachable_inv remote limit timestamp qs d :
  reachable remote limit qs (initial_summary timestamp qs) d →
  dispatch_inv limit qs d.
Proof. apply dispatch_inv_steps, initial_summary_inv. Qed.

(** What is true once [gather] has returned. *)
Lemma gathered_inv limit qs d :
  dispatch_inv limit qs d → gathered d = true →
  in_flight d = 0
  ∧ calls d ≡ₚ qs
  ∧ (ResultEntry.id <$> benchmark_results d) ++ Summary.failed_questions (summary d)
    ≡ₚ Question.id <$> qs.
Proof.
  intros [Hqs _ Hcalls Hacc _ _] Hdone.
  unfold in_flight, questions_in, gathered in *.
  pose proof (selected_all_finished _ InFlight Hdone) as Hnone.
  pose proof (selected_all_finished _ Finished Hdone) as Hall.
  rewrite decide_False in Hnone by discriminate.
  rewrite decide_True, Hqs in Hall by reflexivity.
  rewrite Hnone, Hall in Hcalls. rewrite Hall in Hacc. rewrite Hnone.
  auto.
Qed.

(** A run that assembles a report has passed the checks, followed its
    schedule until [gather] returned, and sorted the results. *)
Lemma main_report env schedule e rep :
  main env schedule = Some e → final_output e = Some rep →
  ∃ qs d,
    truthy (OPEN_ROUTER_API_KEY env) = true
    ∧ questions_benchmark_json env = Loaded qs
    ∧ run (openrouter env) schedule
        (dispatch CONCURRENT_REQUESTS qs (initial_summary (now env) qs)) = Some d
    ∧ gathered d = true
    ∧ dispatch_inv CONCURRENT_REQUESTS qs d
    ∧ handler_calls e = calls d
    ∧ rep = {| Report.results := sort_by_key ResultEntry.id (benchmark_results d);
               Report.summary := summary d |}
    ∧ output_file e
      = if output_writable env then Some (PyDict (Report.to_dict rep)) else None.
Proof.
  unfold main. intros Hmain Hrep.
  destruct (truthy (OPEN_ROUTER_API_KEY env)) eqn:Hkey; cbn in Hmain;
    [|injection Hmain as <-; discriminate].
  destruct (questions_benchmark_json env) as [| |qs] eqn:Hfile;
    try (injection Hmain as <-; discriminate).
  destruct (run _ _ _) as [d|] eqn:Hrun; [|discriminate]. cbn in Hmain.
  destruct (gathered d) eqn:Hdone; [|discriminate].
  injection Hmain as <-. cbn in Hrep. injection Hrep as <-.
  exists qs, d. split_and!; try assumption; try reflexivity.
  eapply dispatch_inv_steps; [apply initial_summary_inv | eapply run_steps, Hrun].
Qed.

Lemma main_written env schedule e v :
  main env schedule = Some e → output_file e = Some v →
  ∃ rep, final_output e = Some rep ∧ v = PyDict (Report.to_dict rep).
Proof.
  intros Hmain Hv.
  destruct (final_output e) as [rep|] eqn:Hrep.
  - destruct (main_report _ _ _ _ Hmain Hrep)
      as (qs & d & _ & _ & _ & _ & _ & _ & _ & Hout).
    rewrite Hout in Hv. destruct (output_writable env); [|discriminate].
    injection Hv as <-. eauto.
  - unfold main in Hmain.
    destruct (truthy _); cbn in Hmain; [|injection Hmain as <-; discriminate].
    destruct (questions_benchmark_json env);
      try (injection Hmain as <-; discriminate).
    destruct (run _ _ _) as [d|]; [|discriminate]. cbn in Hmain.
    destruct (gathered d); [|discriminate].
    injection Hmain as <-. discriminate.
Qed.

(** With the key set and the questions loaded, whatever the event loop
    has done so far, the run can go on until the report is assembled. *)
Lemma main_can_complete env qs started d :
  truthy (OPEN_ROUTER_API_KEY env) = true →
  questions_benchmark_json env = Loaded qs →
  run (openrouter env) started
    (dispatch CONCURRENT_REQUESTS qs (initial_summary (now env) qs)) = Some d →
  ∃ rest e rep,
    main env (started ++ rest) = Some e ∧ final_output e = Some rep.
Proof.
  intros Hkey Hfile Hstarted.
  destruct (can_complete (openrouter env) CONCURRENT_REQUESTS qs
              ltac:(unfold CONCURRENT_REQUESTS; lia) (remaining_work d) d)
    as (rest & d' & Hrest & Hdone); [|lia|].
  { eapply dispatch_inv_steps; [apply initial_summary_inv | eapply run_steps, Hstarted]. }
  exists rest. unfold main. rewrite Hkey, Hfile. cbn.
  rewrite (run_app _ _ _ _ _ _ Hstarted Hrest). cbn. rewrite Hdone.
  eexists _, _. split; reflexivity.
Qed.

Lemma uses_positive model (results : list ResultEntry.t) :
  uses model results ≠ 0 ↔ model ∈ ResultEntry.model_used <$> results.
Proof.
  unfold uses. induction results as [|r results IH].
  - cbn. split; [congruence | intros H; inversion H].
  - rewrite filter_cons, fmap_cons, elem_of_cons.
    destruct (decide (ResultEntry.model_used r = model)) as [Heq|Hne];
      cbn [length].
    + split; [auto | discriminate].
    + rewrite IH. split; [auto | intros [?|?]; congruence].
Qed.

(** Reading back what [Report.to_dict] lays out gives the ids of the
    results, in order. *)
Lemma result_ids_entries (results : list ResultEntry.t) :
  result_ids ((PyDict ∘ ResultEntry.to_dict) <$> results)
  = Some (ResultEntry.id <$> results).
Proof.
  induction results as [|r results IH]; [reflexivity|].
  rewrite !fmap_cons. cbn [result_ids]. rewrite IH. reflexivity.
Qed.

Lemma written_result_ids_report rep :
  written_result_ids (PyDict (Report.to_dict rep))
  = Some (ResultEntry.id <$> Report.results rep).
Proof. cbn. apply result_ids_entries. Qed.

Lemma uses_perm model (results results' : list ResultEntry.t) :
  results ≡ₚ results' → uses model results = uses model results'.
Proof. unfold uses. intros ->. reflexivity. Qed.
End Orchestrator.

(** * The report *)

(** C1. In every run over questions with pairwise distinct ids that
    assembles its report, each question id is either the id of exactly
    one result or listed exactly once in [failed_questions], never both
    and never neither: the ids of the results and the failed ids have no
    element in common and together are the input ids, and the number of
    results plus the number of failed ids is [total_questions], the
    number of questions. *)
Theorem report_accounts_for_every_question
    (env : environment) (schedule : list nat) (e : execution) (rep : Report.t)
    (questions : list Question.t)
    (Hfile : questions_benchmark_json env = Loaded questions)
    (Hdistinct : NoDup (Question.id <$> questions))
    (Hmain : main env schedule = Some e)
    (Hreport : final_output e = Some rep) :
  let answered := ResultEntry.id <$> Report.results rep in
  let failed := Summary.failed_questions (Report.summary rep) in
  (∀ i, i ∈ Question.id <$> questions ↔ i ∈ answered ∨ i ∈ failed)
  ∧ (∀ i, i ∈ answered → i ∉ failed)
  ∧ NoDup answered ∧ NoDup failed
  ∧ length (Report.results rep) + length failed
    = Summary.total_questions (Report.summary rep)
  ∧ Summary.total_questions (Report.summary rep) = length questions.
Proof.
  intros answered failed.
  destruct (main_report _ _ _ _ Hmain Hreport)
    as (qs & d & _ & Hfile' & _ & Hdone & Hinv & _ & Hrep & _).
  rewrite Hfile in Hfile'. injection Hfile' as <-.
  destruct (gathered_inv _ _ _ Hinv Hdone) as (_ & _ & Hacc).
  assert (Hall : answered ++ failed ≡ₚ Question.id <$> questions).
  { subst answered failed. rewrite Hrep. cbn [Report.results Report.summary].
    rewrite sort_by_key_perm. exact Hacc. }
  assert (Hnodup : NoDup (answered ++ failed)) by (rewrite Hall; exact Hdistinct).
  apply NoDup_app in Hnodup as (Hanswered & Hdisjoint & Hfailed).
  split_and!; try assumption.
  - intros i. rewrite <- Hall, elem_of_app. reflexivity.
  - apply Permutation_length in Hall. subst answered failed.
    rewrite length_app, !length_fmap in Hall.
    rewrite Hall. subst rep. cbn. symmetry. apply (inv_total _ _ _ Hinv).
  - subst rep. cbn. apply (inv_total _ _ _ Hinv).
Qed.

Lemma report_accounts_for_every_question_witness :
  main example_env example_schedule = Some example_execution
  ∧ (∀ i, i ∈ Question.id <$> example_questions
          ↔ i ∈ ResultEntry.id <$> Report.results example_report
            ∨ i ∈ Summary.failed_questions (Report.summary example_report))
  ∧ length (Report.results example_report)
    + length (Summary.failed_questions (Report.summary example_report))
    = Summary.total_questions (Report.summary example_report).
Proof.
  split; [vm_compute; reflexivity|].
  pose proof (report_accounts_for_every_question example_env example_schedule
                example_execution example_report example_questions) as H.
  cbv zeta in H.
  destruct H as (Hall & _ & _ & _ & Hcount & _).
  - reflexivity.
  - apply (bool_decide_unpack _). vm_compute. reflexivity.
  - vm_compute. reflexivity.
  - reflexivity.
  - split; [exact Hall | exact Hcount].
Defined.

(** C5. In every run, whatever the order in which the handlers
    completed, the results of the report written to the output file are
    in ascending order of question id: the ids read back from the
    written value, result by result, are those of the assembled report's
    results and ascend. *)
Theorem written_results_ascending
    (env : environment) (schedule : list nat) (e : execution) (v : pyvalue)
    (Hmain : main env schedule = Some e)
    (Hwritten : output_file e = Some v) :
  ∃ rep ids,
    final_output e = Some rep
    ∧ v = PyDict (Report.to_dict rep)
    ∧ written_result_ids v = Some ids
    ∧ ids = ResultEntry.id <$> Report.results rep
    ∧ ascending ids.
Proof.
  destruct (main_written _ _ _ _ Hmain Hwritten) as (rep & Hrep & ->).
  exists rep, (ResultEntry.id <$> Report.results rep).
  split_and!; [assumption | reflexivity | | reflexivity |].
  - apply written_result_ids_report.
  - destruct (main_report _ _ _ _ Hmain Hrep)
      as (qs & d & _ & _ & _ & _ & _ & _ & -> & _).
    apply sort_by_key_sorted.
Qed.

Lemma written_results_ascending_witness :
  main example_env example_schedule = Some example_execution
  ∧ ∃ rep ids,
      final_output example_execution = Some rep
      ∧ PyDict (Report.to_dict example_report) = PyDict (Report.to_dict rep)
      ∧ written_result_ids (PyDict (Report.to_dict example_report)) = Some ids
      ∧ ids = ResultEntry.id <$> Report.results rep
      ∧ ascending ids.
Proof.
  split; [vm_compute; reflexivity|].
  apply (written_results_ascending example_env example_schedule example_execution).
  - vm_compute. reflexivity.
  - reflexivity.
Defined.

(** C6. In every run that assembles its report, [model_usage] has as
    keys exactly the model names occurring in the results, and maps each
    of them to the number of results whose [model_used] is that name. *)
Theorem model_usage_counts_results
    (env : environment) (schedule : list nat) (e : execution) (rep : Report.t)
    (Hmain : main env schedule = Some e)
    (Hreport : final_output e = Some rep) :
  let usage := Summary.model_usage (Report.summary rep) in
  (∀ m, m ∈ dom usage ↔ m ∈ ResultEntry.model_used <$> Report.results rep)
  ∧ (∀ m, m ∈ dom usage → usage !! m = Some (uses m (Report.results rep))).
Proof.
  destruct (main_report _ _ _ _ Hmain Hreport)
    as (qs & d & _ & _ & _ & _ & Hinv & _ & -> & _).
  cbn [Report.results Report.summary].
  pose proof (inv_usage _ _ _ Hinv) as Husage.
  assert (Hsame : ∀ m, uses m (sort_by_key ResultEntry.id (benchmark_results d))
                       = uses m (benchmark_results d))
    by (intros m; apply uses_perm, sort_by_key_perm).
  split; intros m; rewrite elem_of_dom, Husage.
  - rewrite <- uses_positive, Hsame.
    destruct (decide (uses m (benchmark_results d) = 0)) as [Hzero|Hpos].
    + split; [intros [n Hn]; discriminate | congruence].
    + split; [auto | eauto].
  - rewrite Hsame.
    destruct (decide (uses m (benchmark_results d) = 0));
      [intros [n Hn]; discriminate | reflexivity].
Qed.

Lemma model_usage_counts_results_witness :
  main example_env example_schedule = Some example_execution
  ∧ "m1" ∈ dom (Summary.model_usage (Report.summary example_report))
  ∧ Summary.model_usage (Report.summary example_report) !! "m1"
    = Some (uses "m1" (Report.results example_report)).
Proof.
  split; [vm_compute; reflexivity|].
  pose proof (model_usage_counts_results example_env example_schedule
                example_execution example_report) as H.
  cbv zeta in H.
  destruct H as (Hkeys & Hcounts).
  - vm_compute. reflexivity.
  - reflexivity.
  - assert (Hin : "m1" ∈ dom (Summary.model_usage (Report.summary example_report))).
    { apply Hkeys. apply (bool_decide_unpack _). vm_compute. reflexivity. }
    split; [exact Hin | exact (Hcounts "m1" Hin)].
Defined.



(** C8. When the API key is not in the environment, or the question
    file is missing, or it is not valid JSON, [main] returns at once: no
    handler is called, no request is sent, no report is assembled and no
    output file is written. *)
Theorem preflight_failure_aborts (env : environment) (schedule : list nat)
    (Hfail : OPEN_ROUTER_API_KEY env = None
             ∨ questions_benchmark_json env = FileNotFound
             ∨ questions_benchmark_json env = JSONDecodeError) :
  ∃ e,
    main env schedule = Some e
    ∧ handler_calls e = [] ∧ network_requests e = 0
    ∧ final_output e = None ∧ output_file e = None.
Proof.
  exists aborted. split; [|repeat split].
  unfold main. destruct Hfail as [-> | [-> | ->]]; [reflexivity | |];
    destruct (negb _); reflexivity.
Qed.

Lemma preflight_failure_aborts_witness :
  OPEN_ROUTER_API_KEY keyless_env = None
  ∧ ∃ e,
      main keyless_env example_schedule = Some e
      ∧ handler_calls e = [] ∧ network_requests e = 0
      ∧ final_output e = None ∧ output_file e = None.
Proof.
  split; [reflexivity|].
  apply (preflight_failure_aborts keyless_env example_schedule).
  left. reflexivity.
Defined.

(** C9, as the specification has it, fails: the summary of a written
    report has the key [routing_insights], which is not one of the five
    listed. *)
Lemma summary_five_fields_counterexample :
  main example_env example_schedule = Some example_execution
  ∧ ¬ (∀ items summary_items,
         output_file example_execution = Some (PyDict items) →
         dict_get "summary" items = Some (PyDict summary_items) →
         ∀ k, k ∈ keys summary_items ↔ k ∈ listed_summary_keys).
Proof.
  split; [vm_compute; reflexivity|].
  intros Hfive.
  specialize (Hfive (Report.to_dict example_report)
                (Summary.to_dict (Report.summary example_report))
                eq_refl eq_refl "routing_insights").
  assert (Hlisted : "routing_insights" ∈ listed_summary_keys).
  { apply Hfive. apply (bool_decide_unpack _). vm_compute. reflexivity. }
  revert Hlisted. apply (bool_decide_unpack _). vm_compute. reflexivity.
Qed.

(** C9, amended. The summary of every written report has exactly six
    fields: [timestamp], [total_questions],
    [models_configured_for_routing], [model_usage], [failed_questions]
    and [routing_insights]. *)
Theorem written_summary_fields
    (env : environment) (schedule : list nat) (e : execution) (v : pyvalue)
    (Hmain : main env schedule = Some e)
    (Hwritten : output_file e = Some v) :
  ∃ items summary_items,
    v = PyDict items
    ∧ dict_get "summary" items = Some (PyDict summary_items)
    ∧ keys summary_items = summary_keys.
Proof.
  destruct (main_written _ _ _ _ Hmain Hwritten) as (rep & _ & ->).
  eexists _, _. split_and!; reflexivity.
Qed.

Lemma written_summary_fields_witness :
  main example_env example_schedule = Some example_execution
  ∧ ∃ items summary_items,
      PyDict (Report.to_dict example_report) = PyDict items
      ∧ dict_get "summary" items = Some (PyDict summary_items)
      ∧ keys summary_items = summary_keys.
Proof.
  split; [vm_compute; reflexivity|].
  apply (written_summary_fields example_env example_schedule example_execution).
  - vm_compute. reflexivity.
  - reflexivity.
Defined.

(** * More on the client *)

Section ClientLoop.
Local Open Scope Z_scope.
Variable request : nat → api_outcome.

(** As long as the attempts are retried, the loop goes on with one
    attempt less and the delay doubled. *)
Lemma attempt_loop_skip (k : nat) : ∀ (n attempt : nat) (delay : Z),
  (∀ j, (attempt ≤ j < attempt + k)%nat → retryable (request j)) →
  attempt_loop request (k + n) attempt delay
  = CompletionRun
      (returned (attempt_loop request n (attempt + k) (delay * 2 ^ Z.of_nat k)))
      (k + attempts (attempt_loop request n (attempt + k) (delay * 2 ^ Z.of_nat k)))
      (backoff k delay
       ++ sleeps (attempt_loop request n (attempt + k) (delay * 2 ^ Z.of_nat k))).
Proof.
  induction k as [|k IH]; intros n attempt delay Hretry.
  - cbn [Nat.add backoff app]. rewrite Nat.add_0_r, Z.mul_1_r.
    destruct (attempt_loop request n attempt delay); reflexivity.
  - assert (Hnext := IH n (S attempt) (delay * 2) ltac:(intros j Hj; apply Hretry; lia)).
    replace (S attempt + k)%nat with (attempt + S k)%nat in Hnext by lia.
    replace (delay * 2 * 2 ^ Z.of_nat k) with (delay * 2 ^ Z.of_nat (S k)) in Hnext
      by (rewrite Nat2Z.inj_succ, Z.pow_succ_r by lia; ring).
    change (S k + n)%nat with (S (k + n)). cbn [attempt_loop backoff].
    destruct (Hretry attempt ltac:(lia)) as [-> | [-> | ->]];
      rewrite Hnext; reflexivity.
Qed.

(** The waits of [n] retried attempts add up to [delay * (2^n - 1)]. *)
Lemma backoff_total (n : nat) : ∀ delay,
  foldr Z.add 0 (backoff n delay) = delay * (2 ^ Z.of_nat n - 1).
Proof.
  induction n as [|n IH]; intros delay;
    [cbn [backoff foldr]; change (Z.of_nat 0) with 0; rewrite Z.pow_0_r; ring|].
  cbn [backoff foldr]. rewrite IH, Nat2Z.inj_succ, Z.pow_succ_r by lia. ring.
Qed.

Lemma backoff_length (n : nat) : ∀ delay, length (backoff n delay) = n.
Proof. induction n as [|n IH]; intros delay; cbn; [reflexivity | f_equal; apply IH]. Qed.

(** A loop that may try makes at least one attempt. *)
Lemma attempts_positive (n attempt : nat) (delay : Z) :
  (1 ≤ n)%nat → (1 ≤ attempts (attempt_loop request n attempt delay))%nat.
Proof.
  destruct n as [|n]; [lia|]. intros _. cbn [attempt_loop].
  destruct (request attempt) as [c| | | |]; cbn; try lia.
  destruct (ChatCompletion.choices c); cbn; lia.
Qed.

(** What the loop returns is what the service answered at the first
    attempt that was not retried. *)
Lemma attempt_loop_answer (n : nat) : ∀ (attempt : nat) (delay : Z) model_used answer,
  returned (attempt_loop request n attempt delay) = (Some model_used, answer) →
  ∃ (k : nat) completion choice,
    (k < n)%nat
    ∧ (∀ j, (attempt ≤ j < attempt + k)%nat → retryable (request j))
    ∧ request (attempt + k)%nat = Completion completion
    ∧ head (ChatCompletion.choices completion) = Some choice
    ∧ model_used = ChatCompletion.model completion
    ∧ answer = ChatCompletion.content (ChatCompletion.message choice)
    ∧ attempts (attempt_loop request n attempt delay) = S k
    ∧ sleeps (attempt_loop request n attempt delay) = backoff k delay.
Proof.
  induction n as [|n IH]; intros attempt delay model_used answer Hret;
    [discriminate|].
  cbn [attempt_loop] in *.
  assert (Hlater : ∀ r,
    r = attempt_loop request n (S attempt) (delay * 2) →
    retryable (request attempt) →
    returned r = (Some model_used, answer) →
    ∃ (k : nat) completion choice,
      (k < S n)%nat
      ∧ (∀ j, (attempt ≤ j < attempt + k)%nat → retryable (request j))
      ∧ request (attempt + k)%nat = Completion completion
      ∧ head (ChatCompletion.choices completion) = Some choice
      ∧ model_used = ChatCompletion.model completion
      ∧ answer = ChatCompletion.content (ChatCompletion.message choice)
      ∧ S (attempts r) = S k
      ∧ delay :: sleeps r = backoff k delay).
  { intros r -> Hfirst Hr.
    destruct (IH _ _ _ _ Hr) as (k & c & ch & Hk & Hretry & Hreq & Hch & Hm & Ha & Hn & Hs).
    exists (S k), c, ch. split_and!; try assumption.
    - lia.
    - intros j Hj. destruct (decide (j = attempt)) as [->|]; [exact Hfirst|].
      apply Hretry. lia.
    - rewrite <- Hreq. f_equal. lia.
    - rewrite Hn. reflexivity.
    - rewrite Hs. reflexivity. }
  destruct (request attempt) as [c| | | |] eqn:Hreq.
  - destruct (ChatCompletion.choices c) as [|ch others] eqn:Hchoices;
      cbn in Hret; [discriminate|].
    injection Hret as <- <-. exists 0%nat, c, ch.
    rewrite Nat.add_0_r, Hchoices. split_and!; try reflexivity; [lia | | exact Hreq].
    intros j Hj. lia.
  - apply (Hlater _ eq_refl); [left; reflexivity | exact Hret].
  - apply (Hlater _ eq_refl); [right; left; reflexivity | exact Hret].
  - apply (Hlater _ eq_refl); [right; right; reflexivity | exact Hret].
  - discriminate.
Qed.

(** Without a model name the loop returns no answer either. *)
Lemma attempt_loop_none (n : nat) : ∀ (attempt : nat) (delay : Z) answer,
  returned (attempt_loop request n attempt delay) = (None, answer) → answer = None.
Proof.
  induction n as [|n IH]; intros attempt delay answer; cbn [attempt_loop].
  - intros [= <-]. reflexivity.
  - destruct (request attempt) as [c| | | |]; cbn; eauto; try (intros [= <-]; reflexivity).
    destruct (ChatCompletion.choices c); cbn; [intros [= <-]; reflexivity | discriminate].
Qed.
End ClientLoop.

Section ClientExtras.
Local Open Scope Z_scope.

(** X1. When every attempt allowed by [retries], that is, every call of
    [chat.completions.create], raises a rate-limit, connection or status
    error, in any mixture, [get_completion] makes exactly [retries]
    attempts, calls [asyncio.sleep] after each of them, the last one
    included, each time with twice the delay of the time before, and
    returns [(None, None)]; the delays it sleeps itself add up to
    [delay * (2^retries - 1)]. What the SDK client sends and waits
    inside one attempt is not counted. *)
Theorem get_completion_all_attempts_retried (service : Service) (prompt : string)
    (retries delay : Z)
    (Hretried : ∀ k, (k < Z.to_nat retries)%nat → retryable (create service prompt k)) :
  let r := get_completion service prompt retries delay in
  returned r = (None, None)
  ∧ attempts r = Z.to_nat retries
  ∧ sleeps r = backoff (Z.to_nat retries) delay
  ∧ total_backoff r = delay * (2 ^ Z.of_nat (Z.to_nat retries) - 1).
Proof.
  unfold get_completion, total_backoff.
  rewrite attempt_loop_retried by (intros k Hk; apply Hretried; lia).
  cbn [returned attempts sleeps]. split_and!; try reflexivity.
  apply backoff_total.
Qed.

Lemma get_completion_all_attempts_retried_witness :
  let r := get_completion down_service "What is 2 + 2?" 3 2 in
  returned r = (None, None)
  ∧ attempts r = 3%nat
  ∧ sleeps r = [2; 4; 8]
  ∧ total_backoff r = 14.
Proof.
  apply (get_completion_all_attempts_retried down_service "What is 2 + 2?" 3 2).
  intros [|[|[|k]]] Hk; cbn in Hk.
  - left. reflexivity.
  - right. left. reflexivity.
  - right. right. reflexivity.
  - lia.
Defined.

(** X2. [get_completion] never makes more attempts, that is, calls of
    [chat.completions.create], than [retries], and never calls
    [asyncio.sleep] more often than it has made an attempt. *)
Theorem get_completion_within_retries (service : Service) (prompt : string)
    (retries delay : Z) :
  let r := get_completion service prompt retries delay in
  (attempts r ≤ Z.to_nat retries)%nat ∧ (length (sleeps r) ≤ attempts r)%nat.
Proof.
  unfold get_completion. split; [apply attempts_bounded | apply sleeps_bounded].
Qed.

(** X3. With [retries] zero or negative the loop body never runs: no
    request is sent, nothing is slept, and [(None, None)] is returned,
    whatever the service would have answered. *)
Theorem get_completion_no_attempt (service : Service) (prompt : string)
    (retries delay : Z)
    (Hnone : retries ≤ 0) :
  get_completion service prompt retries delay = CompletionRun (None, None) 0 [].
Proof.
  unfold get_completion. replace (Z.to_nat retries) with 0%nat by lia. reflexivity.
Qed.

Lemma get_completion_no_attempt_witness :
  get_completion flaky_service "What is 2 + 2?" 0 2 = CompletionRun (None, None) 0 [].
Proof.
  apply (get_completion_no_attempt flaky_service "What is 2 + 2?" 0 2). lia.
Defined.

(** X4. When the first [k] attempts raise rate-limit, connection or
    status errors and the next one, still within [retries], returns a
    response with a first choice, [get_completion] returns that
    response's model name and that choice's text, having made [k + 1]
    attempts and slept [k] times, from [delay] on and doubling. *)
Theorem get_completion_succeeds_after_retries (service : Service) (prompt : string)
    (retries delay : Z) (k : nat)
    (completion : ChatCompletion.t) (choice : ChatCompletion.Choice)
    (others : list ChatCompletion.Choice)
    (Hwithin : (k < Z.to_nat retries)%nat)
    (Hretried : ∀ j, (j < k)%nat → retryable (create service prompt j))
    (Hanswer : create service prompt k = Completion completion)
    (Hchoice : ChatCompletion.choices completion = choice :: others) :
  let r := get_completion service prompt retries delay in
  returned r
  = (Some (ChatCompletion.model completion),
     ChatCompletion.content (ChatCompletion.message choice))
  ∧ attempts r = S k
  ∧ sleeps r = backoff k delay.
Proof.
  unfold get_completion.
  replace (Z.to_nat retries) with (k + S (Z.to_nat retries - S k))%nat by lia.
  rewrite attempt_loop_skip by (intros j Hj; apply Hretried; lia).
  cbn [attempt_loop Nat.add]. rewrite Hanswer, Hchoice. cbn.
  rewrite app_nil_r. split_and!; [reflexivity | f_equal; lia | reflexivity].
Qed.

Lemma get_completion_succeeds_after_retries_witness :
  let r := get_completion flaky_service "What is 2 + 2?" 3 2 in
  returned r = (Some "m2", Some "four") ∧ attempts r = 3%nat ∧ sleeps r = [2; 4].
Proof.
  apply (get_completion_succeeds_after_retries flaky_service "What is 2 + 2?" 3 2 2
           (ChatCompletion.Build_t "m2"
              [ChatCompletion.Build_Choice (ChatCompletion.Build_Message (Some "four"))])
           (ChatCompletion.Build_Choice (ChatCompletion.Build_Message (Some "four")))
           []).
  - cbn. lia.
  - intros [|[|j]] Hj; [right; left; reflexivity | right; right; reflexivity | lia].
  - reflexivity.
  - reflexivity.
Defined.

(** X5. When the first [k] attempts are retried and the next one, still
    within [retries], raises any other exception or returns a response
    without choices, [get_completion] stops there: it returns
    [(None, None)] after [k + 1] attempts and [k] sleeps, leaving the
    remaining attempts unused. *)
Theorem get_completion_stops_at_abort (service : Service) (prompt : string)
    (retries delay : Z) (k : nat)
    (Hwithin : (k < Z.to_nat retries)%nat)
    (Hretried : ∀ j, (j < k)%nat → retryable (create service prompt j))
    (Habort : aborts (create service prompt k)) :
  let r := get_completion service prompt retries delay in
  returned r = (None, None) ∧ attempts r = S k ∧ sleeps r = backoff k delay.
Proof.
  unfold get_completion.
  replace (Z.to_nat retries) with (k + S (Z.to_nat retries - S k))%nat by lia.
  rewrite attempt_loop_skip by (intros j Hj; apply Hretried; lia).
  cbn [attempt_loop Nat.add].
  destruct Habort as [-> | (c & -> & ->)]; cbn; rewrite app_nil_r;
    (split_and!; [reflexivity | f_equal; lia | reflexivity]).
Qed.

Lemma get_completion_stops_at_abort_witness :
  let r := get_completion hollow_service "What is 2 + 2?" 3 2 in
  returned r = (None, None) ∧ attempts r = 2%nat ∧ sleeps r = [2].
Proof.
  apply (get_completion_stops_at_abort hollow_service "What is 2 + 2?" 3 2 1).
  - cbn. lia.
  - intros [|j] Hj; [left; reflexivity | lia].
  - right. eexists. split; reflexivity.
Defined.

(** X6. [get_completion] returns either [(None, None)] or what the
    service answered: a model name is returned only together with the
    text of the first choice of a response received at some attempt
    within [retries], all attempts before it having been retried; it
    never returns a model name or an answer of its own making. *)
Theorem get_completion_returns_service_answer (service : Service) (prompt : string)
    (retries delay : Z) :
  let r := get_completion service prompt retries delay in
  returned r = (None, None)
  ∨ ∃ (k : nat) completion choice,
      (k < Z.to_nat retries)%nat
      ∧ (∀ j, (j < k)%nat → retryable (create service prompt j))
      ∧ create service prompt k = Completion completion
      ∧ head (ChatCompletion.choices completion) = Some choice
      ∧ returned r
        = (Some (ChatCompletion.model completion),
           ChatCompletion.content (ChatCompletion.message choice))
      ∧ attempts r = S k
      ∧ sleeps r = backoff k delay.
Proof.
  unfold get_completion. cbv zeta.
  destruct (returned (attempt_loop _ _ _ _)) as [[model_used|] answer] eqn:Hret.
  - right.
    destruct (attempt_loop_answer _ _ _ _ _ _ Hret)
      as (k & c & ch & Hk & Hretry & Hreq & Hch & -> & -> & Hn & Hs).
    exists k, c, ch. split_and!; try assumption; try reflexivity.
    intros j Hj. apply Hretry. lia.
  - left. rewrite (attempt_loop_none _ _ _ _ _ Hret). reflexivity.
Qed.
End ClientExtras.

(** * More on the handler *)

Lemma truthy_nonempty (s : string) : truthy (Some s) = true ↔ s ≠ "".
Proof.
  cbn. rewrite negb_true_iff. split.
  - intros Hs ->. discriminate.
  - intros Hs. apply String.eqb_neq. exact Hs.
Qed.

(** The entries a call adds do not depend on the collections it is given. *)
Lemma process_question_results client q results summary_data :
  (process_question client q results summary_data).1 = results ++ answers client q.
Proof.
  unfold answers, process_question.
  destruct (returned _) as [model_used answer].
  destruct (truthy model_used && truthy answer); cbn; [reflexivity|].
  rewrite app_nil_r. reflexivity.
Qed.

(** An entry is added only for a non-empty model name and answer, and
    carries them with the question's fields. *)
Lemma answers_cases client q :
  answers client q = []
  ∨ ∃ model_used answer,
      returned (get_completion client (Question.question q) 3 2)
      = (Some model_used, Some answer)
      ∧ model_used ≠ "" ∧ answer ≠ ""
      ∧ answers client q
        = [ResultEntry.Build_t (Question.id q) (Question.difficulty q)
             (Question.question q) model_used answer].
Proof.
  unfold answers, process_question.
  destruct (returned _) as [model_used answer].
  destruct (truthy model_used && truthy answer) eqn:Htruthy; [|left; reflexivity].
  apply andb_prop in Htruthy as [Hm Ha].
  destruct model_used as [m|]; [|discriminate]. destruct answer as [a|]; [|discriminate].
  right. exists m, a. split_and!; try reflexivity; apply truthy_nonempty; assumption.
Qed.

(** X7. When [get_completion] returns a non-empty model name and a
    non-empty answer, [process_question] appends one entry with the
    question's id, difficulty and text, that model name and that answer;
    the count of that model goes up by one, starting from 0 if it had
    none; the other counts and [failed_questions] stay as they were. *)
Theorem process_question_records_answer (client : Service) (q : Question.t)
    (results : list ResultEntry.t) (summary_data : Summary.t)
    (model_used answer : string)
    (Hreturned : returned (get_completion client (Question.question q) 3 2)
                 = (Some model_used, Some answer))
    (Hmodel : model_used ≠ "")
    (Hanswer : answer ≠ "") :
  let outcome := process_question client q results summary_data in
  outcome.1
  = results ++ [ResultEntry.Build_t (Question.id q) (Question.difficulty q)
                  (Question.question q) model_used answer]
  ∧ Summary.model_usage outcome.2 !! model_used
    = Some (default 0 (Summary.model_usage summary_data !! model_used) + 1)
  ∧ (∀ other, other ≠ model_used →
       Summary.model_usage outcome.2 !! other
       = Summary.model_usage summary_data !! other)
  ∧ Summary.failed_questions outcome.2 = Summary.failed_questions summary_data.
Proof.
  unfold process_question. rewrite Hreturned.
  apply truthy_nonempty in Hmodel, Hanswer. rewrite Hmodel, Hanswer.
  cbn [andb fst snd default Summary.count_model Summary.model_usage
       Summary.failed_questions].
  split_and!; try reflexivity.
  - apply lookup_insert_eq.
  - intros other Hother. apply lookup_insert_ne.
    intros Heq. apply Hother. symmetry. exact Heq.
Qed.

Lemma process_question_records_answer_witness :
  let q := Question.Build_t 7 "easy" "What is 2 + 2?" in
  let summary_data := initial_summary "2025-01-01T00:00:00" [q] in
  let outcome := process_question flaky_service q [] summary_data in
  outcome.1 = [ResultEntry.Build_t 7 "easy" "What is 2 + 2?" "m2" "four"]
  ∧ Summary.model_usage outcome.2 !! "m2" = Some 1
  ∧ Summary.failed_questions outcome.2 = [].
Proof.
  intros q summary_data outcome.
  destruct (process_question_records_answer flaky_service q [] summary_data
              "m2" "four" eq_refl ltac:(discriminate) ltac:(discriminate))
    as (Hresults & Hcount & _ & Hfailed).
  split_and!; [exact Hresults | exact Hcount | exact Hfailed].
Defined.

(** X8. Whatever the service does, [process_question] adds exactly one
    item to exactly one of the two collections, at its end, keeping what
    was there in place; it leaves the summary's timestamp, question
    count, configured models and routing text untouched. *)
Theorem process_question_frame (client : Service) (q : Question.t)
    (results : list ResultEntry.t) (summary_data : Summary.t) :
  let outcome := process_question client q results summary_data in
  ((∃ e, outcome.1 = results ++ [e]
         ∧ Summary.failed_questions outcome.2 = Summary.failed_questions summary_data)
   ∨ (outcome.1 = results
      ∧ Summary.failed_questions outcome.2
        = Summary.failed_questions summary_data ++ [Question.id q]))
  ∧ Summary.timestamp outcome.2 = Summary.timestamp summary_data
  ∧ Summary.total_questions outcome.2 = Summary.total_questions summary_data
  ∧ Summary.models_configured_for_routing outcome.2
    = Summary.models_configured_for_routing summary_data
  ∧ Summary.routing_insights outcome.2 = Summary.routing_insights summary_data.
Proof.
  cbv zeta.
  destruct (process_question_cases client q results summary_data)
    as [(e & _ & ->) | ->]; cbn.
  - split_and!; try reflexivity. left. exists e. split; reflexivity.
  - split_and!; try reflexivity. right. split; reflexivity.
Qed.

(** X9. A question all three of whose attempts raise rate-limit,
    connection or status errors is recorded as failed: its id is appended
    to [failed_questions], after three attempts, and neither [results]
    nor [model_usage] changes. *)
Theorem process_question_gives_up (client : Service) (q : Question.t)
    (results : list ResultEntry.t) (summary_data : Summary.t)
    (Hretried : ∀ k, (k < 3)%nat → retryable (create client (Question.question q) k)) :
  let outcome := process_question client q results summary_data in
  attempts (get_completion client (Question.question q) 3 2) = 3
  ∧ outcome.1 = results
  ∧ Summary.failed_questions outcome.2
    = Summary.failed_questions summary_data ++ [Question.id q]
  ∧ Summary.model_usage outcome.2 = Summary.model_usage summary_data.
Proof.
  assert (Hrun : get_completion client (Question.question q) 3 2
                 = CompletionRun (None, None) 3 (backoff 3 2)).
  { unfold get_completion. apply attempt_loop_retried.
    intros k Hk. apply Hretried. lia. }
  unfold process_question. rewrite Hrun. cbn. split_and!; reflexivity.
Qed.

Lemma process_question_gives_up_witness :
  let q := Question.Build_t 7 "easy" "What is 2 + 2?" in
  let summary_data := initial_summary "2025-01-01T00:00:00" [q] in
  let outcome := process_question down_service q [] summary_data in
  attempts (get_completion down_service (Question.question q) 3 2) = 3
  ∧ outcome.1 = []
  ∧ Summary.failed_questions outcome.2 = [7%Z]
  ∧ Summary.model_usage outcome.2 = ∅.
Proof.
  intros q summary_data outcome.
  apply (process_question_gives_up down_service q [] summary_data).
  intros [|[|[|k]]] Hk.
  - left. reflexivity.
  - right. left. reflexivity.
  - right. right. reflexivity.
  - lia.
Defined.

(** * More on the dispatcher *)

Section FinishedResults.
Variable remote : nat → Service.
Implicit Types (l : list (Question.t * task_state)) (q : Question.t).

Lemma finished_results_fresh (questions : list Question.t) : ∀ k,
  finished_results remote k (map (λ q, (q, Pending)) questions) = [].
Proof.
  induction questions as [|q qs IH]; intros k; cbn [map finished_results];
    [reflexivity|].
  rewrite decide_False by discriminate. apply IH.
Qed.

(** Entering the semaphore adds no result. *)
Lemma finished_results_enter l : ∀ k i q,
  l !! i = Some (q, Pending) →
  finished_results remote k (<[i := (q, InFlight)]> l) = finished_results remote k l.
Proof.
  induction l as [|[q' st] l IH]; intros k [|i] q Hi; try discriminate;
    cbn in Hi; cbn [insert list_insert finished_results].
  - injection Hi as -> ->. rewrite !decide_False by discriminate. reflexivity.
  - f_equal. apply (IH (S k) i q Hi).
Qed.

(** Returning adds the results of the task at that position. *)
Lemma finished_results_return l : ∀ k i q,
  l !! i = Some (q, InFlight) →
  finished_results remote k (<[i := (q, Finished)]> l)
  ≡ₚ finished_results remote k l ++ answers (remote (k + i)) q.
Proof.
  induction l as [|[q' st] l IH]; intros k [|i] q Hi; try discriminate;
    cbn in Hi; cbn [insert list_insert finished_results].
  - injection Hi as -> ->.
    rewrite decide_True by reflexivity. rewrite decide_False by discriminate.
    rewrite Nat.add_0_r. cbn [app]. apply Permutation_app_comm.
  - pose proof (IH (S k) i q Hi) as Hrest.
    replace (S k + i) with (k + S i) in Hrest by lia.
    change (list_insert i (q, Finished) l) with (<[i := (q, Finished)]> l).
    rewrite Hrest, app_assoc. reflexivity.
Qed.

(** Every result of a finished task was added for a task at some
    position of the list. *)
Lemma finished_results_elem l : ∀ k r,
  r ∈ finished_results remote k l →
  ∃ i q st, l !! i = Some (q, st) ∧ r ∈ answers (remote (k + i)) q.
Proof.
  induction l as [|[q st] l IH]; intros k r; cbn [finished_results].
  - intros Hr. inversion Hr.
  - rewrite elem_of_app. intros [Hr | Hr].
    + destruct (decide (st = Finished)); [|inversion Hr].
      exists 0, q, st. rewrite Nat.add_0_r. split; [reflexivity | exact Hr].
    + destruct (IH (S k) r Hr) as (i & q' & st' & Hi & Hin).
      exists (S i), q', st'. replace (k + S i) with (S k + i) by lia.
      split; [exact Hi | exact Hin].
Qed.

(** Once every task is finished, the list of tasks is fixed by the
    questions. *)
Lemma all_finished_tasks l :
  forallb (λ t, bool_decide (t.2 = Finished)) l = true →
  l = (λ q, (q, Finished)) <$> l.*1.
Proof.
  induction l as [|[q st] l IH]; cbn [forallb]; intros Hall; [reflexivity|].
  apply andb_prop in Hall as [Hst Hl]. apply bool_decide_eq_true in Hst.
  cbn in Hst. subst st. cbn. f_equal. apply IH, Hl.
Qed.
End FinishedResults.

Section UsageTotal.
Implicit Types (usage : gmap string nat) (model : string).

Lemma usage_total_insert_new usage model count :
  usage !! model = None →
  usage_total (<[model := count]> usage) = count + usage_total usage.
Proof.
  intros Hnew. unfold usage_total.
  rewrite map_fold_insert_L; [reflexivity | | exact Hnew].
  intros. lia.
Qed.

(** Counting one more use of a model adds one to the total. *)
Lemma usage_total_count usage model :
  usage_total (<[model := default 0 (usage !! model) + 1]> usage)
  = S (usage_total usage).
Proof.
  destruct (usage !! model) as [count|] eqn:Hcount; cbv [default from_option id].
  - assert (Hbefore : usage_total usage = count + usage_total (delete model usage)).
    { rewrite <- (insert_delete_id usage model count Hcount) at 1.
      apply usage_total_insert_new, lookup_delete_eq. }
    assert (Hafter : usage_total (<[model := count + 1]> usage)
                     = count + 1 + usage_total (delete model usage)).
    { rewrite <- insert_delete_eq. apply usage_total_insert_new, lookup_delete_eq. }
    lia.
  - rewrite usage_total_insert_new by exact Hcount. lia.
Qed.
End UsageTotal.

Section Ledger.
Variable remote : nat → Service.
Variable summary0 : Summary.t.

Lemma ledger_inv_initial limit questions :
  Summary.model_usage summary0 = ∅ →
  ledger_inv remote summary0 (dispatch limit questions summary0).
Proof.
  intros Husage.
  split; unfold questions_in;
    cbn [tasks requests benchmark_results summary dispatch];
    rewrite ?selected_fresh, ?finished_results_fresh, ?Husage; reflexivity.
Qed.

Lemma ledger_inv_advance i d d' :
  ledger_inv remote summary0 d →
  advance remote i d = Some d' →
  ledger_inv remote summary0 d'.
Proof.
  intros [Hmin Hmax Hresults Htotal Htime Hmodels Hinsights] Hadv.
  unfold questions_in in *.
  destruct (advance_cases _ _ _ _ Hadv) as [(q & value & Hi & _ & ->)|(q & Hi & ->)].
  - split; unfold questions_in;
      cbn [tasks requests benchmark_results summary]; try assumption.
    + rewrite (selected_other _ _ _ _ _ Finished Hi) by discriminate. exact Hmin.
    + rewrite (selected_other _ _ _ _ _ Finished Hi) by discriminate. exact Hmax.
    + rewrite (finished_results_enter _ _ _ _ _ Hi). exact Hresults.
  - pose proof (selected_arrive _ _ _ _ Finished Hi ltac:(discriminate)) as Harrive.
    apply Permutation_length in Harrive. cbn [length] in Harrive.
    assert (Hsent : (1 ≤ attempts (get_completion (remote i) (Question.question q) 3 2)
                     ∧ attempts (get_completion (remote i) (Question.question q) 3 2) ≤ 3)%nat).
    { unfold get_completion. split.
      - apply attempts_positive. cbn. lia.
      - apply (attempts_bounded _ (Z.to_nat 3)). }
    split; unfold questions_in;
      cbn [tasks requests benchmark_results summary].
    + rewrite Harrive. lia.
    + rewrite Harrive. lia.
    + rewrite process_question_results, (finished_results_return _ _ _ _ _ Hi).
      rewrite Hresults. reflexivity.
    + destruct (process_question_cases (remote i) q (benchmark_results d) (summary d))
        as [(e & _ & ->) | ->];
        cbn [fst snd Summary.model_usage Summary.count_model Summary.add_failed].
      * rewrite usage_total_count, length_app, Htotal. cbn. lia.
      * exact Htotal.
    + destruct (process_question_cases (remote i) q (benchmark_results d) (summary d))
        as [(e & _ & ->) | ->]; exact Htime.
    + destruct (process_question_cases (remote i) q (benchmark_results d) (summary d))
        as [(e & _ & ->) | ->]; exact Hmodels.
    + destruct (process_question_cases (remote i) q (benchmark_results d) (summary d))
        as [(e & _ & ->) | ->]; exact Hinsights.
Qed.

Lemma ledger_inv_steps d d' :
  ledger_inv remote summary0 d → rtc (step remote) d d' →
  ledger_inv remote summary0 d'.
Proof.
  intros Hinv Hsteps. induction Hsteps as [|d1 d2 d3 [i Hadv] _ IH]; [exact Hinv|].
  apply IH. exact (ledger_inv_advance i d1 d2 Hinv Hadv).
Qed.
End Ledger.

(** * More on the orchestrator *)

Section SortedUnique.
Context {A : Type} (key : A → Z).

(** Two ascending arrangements of the same elements are the same list
    when no key occurs twice. *)
Lemma sorted_perm_unique (l1 : list A) : ∀ l2,
  NoDup (key <$> l1) →
  Sorted Z.le (key <$> l1) → Sorted Z.le (key <$> l2) →
  l1 ≡ₚ l2 → l1 = l2.
Proof.
  induction l1 as [|x l1 IH]; intros l2 Hnodup Hs1 Hs2 Hperm.
  - symmetry. apply Permutation_nil_r. symmetry. exact Hperm.
  - destruct l2 as [|y l2].
    { apply Permutation_nil_r in Hperm. discriminate. }
    rewrite fmap_cons in Hnodup, Hs1, Hs2.
    apply NoDup_cons in Hnodup as [Hfresh Hnodup].
    apply Sorted_StronglySorted in Hs1; [|intros a b c; apply Z.le_trans].
    apply Sorted_StronglySorted in Hs2; [|intros a b c; apply Z.le_trans].
    apply StronglySorted_inv in Hs1 as [Hs1 Hmin1].
    apply StronglySorted_inv in Hs2 as [Hs2 Hmin2].
    rewrite Forall_forall in Hmin1, Hmin2.
    assert (Hxy : x = y).
    { assert (Hx : x ∈ y :: l2) by (rewrite <- Hperm; apply list_elem_of_here).
      assert (Hy : y ∈ x :: l1) by (rewrite Hperm; apply list_elem_of_here).
      apply elem_of_cons in Hx as [Hx|Hx]; [exact Hx|].
      apply elem_of_cons in Hy as [Hy|Hy]; [symmetry; exact Hy|].
      exfalso. apply Hfresh.
      assert (Hle1 : (key x ≤ key y)%Z).
      { apply Hmin1. apply list_elem_of_fmap. eauto. }
      assert (Hle2 : (key y ≤ key x)%Z).
      { apply Hmin2. apply list_elem_of_fmap. eauto. }
      replace (key x) with (key y) by lia.
      apply list_elem_of_fmap. eauto. }
    subst y. f_equal.
    apply IH; try assumption.
    + apply StronglySorted_Sorted, Hs1.
    + apply StronglySorted_Sorted, Hs2.
    + apply (inj (x ::.)). exact Hperm.
Qed.
End SortedUnique.

Section OrchestratorExtras.
Implicit Types (env : environment) (schedule : list nat) (e : execution).
Implicit Types (rep : Report.t) (qs : list Question.t) (d : dispatcher).

(** What a run that assembles a report has gone through, with the
    ledger of its dispatcher. *)
Lemma main_ledger env schedule e rep :
  main env schedule = Some e → final_output e = Some rep →
  ∃ qs d,
    questions_benchmark_json env = Loaded qs
    ∧ gathered d = true
    ∧ dispatch_inv CONCURRENT_REQUESTS qs d
    ∧ ledger_inv (openrouter env) (initial_summary (now env) qs) d
    ∧ network_requests e = requests d
    ∧ rep = {| Report.results := sort_by_key ResultEntry.id (benchmark_results d);
               Report.summary := summary d |}.
Proof.
  intros Hmain Hrep.
  destruct (main_report _ _ _ _ Hmain Hrep)
    as (qs & d & Hkey & Hfile & Hrun & Hdone & Hinv & _ & Hreport & _).
  exists qs, d. split_and!; try assumption.
  - eapply ledger_inv_steps; [|eapply run_steps, Hrun].
    apply ledger_inv_initial. reflexivity.
  - unfold main in Hmain. rewrite Hkey, Hfile in Hmain. cbn [negb] in Hmain.
    rewrite Hrun in Hmain. cbn [mbind option_bind] in Hmain.
    rewrite Hdone in Hmain. injection Hmain as <-. reflexivity.
Qed.



(** X11. With pairwise distinct ids, two runs under the same
    environment, whatever the order in which their handlers completed,
    have the same results in the same order, the same count for every
    model name in [model_usage], and the same failed ids up to order.
    The order of [failed_questions] and the order of the keys of
    [model_usage] follow the order of completion and may differ. *)
Theorem report_independent_of_schedule
    (env : environment) (schedule1 schedule2 : list nat) (e1 e2 : execution)
    (rep1 rep2 : Report.t) (questions : list Question.t)
    (Hfile : questions_benchmark_json env = Loaded questions)
    (Hdistinct : NoDup (Question.id <$> questions))
    (Hmain1 : main env schedule1 = Some e1)
    (Hmain2 : main env schedule2 = Some e2)
    (Hreport1 : final_output e1 = Some rep1)
    (Hreport2 : final_output e2 = Some rep2) :
  Report.results rep1 = Report.results rep2
  ∧ (∀ model,
       Summary.model_usage (Report.summary rep1) !! model
       = Summary.model_usage (Report.summary rep2) !! model)
  ∧ Summary.failed_questions (Report.summary rep1)
    ≡ₚ Summary.failed_questions (Report.summary rep2).
Proof.
  destruct (main_ledger _ _ _ _ Hmain1 Hreport1)
    as (qs1 & d1 & Hfile1 & Hdone1 & Hinv1 & Hledger1 & _ & ->).
  destruct (main_ledger _ _ _ _ Hmain2 Hreport2)
    as (qs2 & d2 & Hfile2 & Hdone2 & Hinv2 & Hledger2 & _ & ->).
  rewrite Hfile in Hfile1, Hfile2.
  injection Hfile1 as <-. injection Hfile2 as <-.
  cbn [Report.results Report.summary].
  assert (Htasks : tasks d1 = tasks d2).
  { rewrite (all_finished_tasks _ Hdone1), (all_finished_tasks _ Hdone2).
    rewrite (inv_questions _ _ _ Hinv1), (inv_questions _ _ _ Hinv2). reflexivity. }
  assert (Hsame : benchmark_results d1 ≡ₚ benchmark_results d2).
  { rewrite (inv_results _ _ _ Hledger1), (inv_results _ _ _ Hledger2), Htasks.
    reflexivity. }
  destruct (gathered_inv _ _ _ Hinv1 Hdone1) as (_ & _ & Hacc1).
  destruct (gathered_inv _ _ _ Hinv2 Hdone2) as (_ & _ & Hacc2).
  split_and!.
  - apply (sorted_perm_unique ResultEntry.id).
    + rewrite sort_by_key_perm.
      assert (Hnodup : NoDup ((ResultEntry.id <$> benchmark_results d1)
                              ++ Summary.failed_questions (summary d1)))
        by (rewrite Hacc1; exact Hdistinct).
      apply NoDup_app in Hnodup as (Hnodup & _). exact Hnodup.
    + apply sort_by_key_sorted.
    + apply sort_by_key_sorted.
    + rewrite !sort_by_key_perm. exact Hsame.
  - intros model.
    rewrite (inv_usage _ _ _ Hinv1), (inv_usage _ _ _ Hinv2).
    rewrite (uses_perm model _ _ Hsame). reflexivity.
  - apply (Permutation_app_inv_l (ResultEntry.id <$> benchmark_results d1)).
    rewrite Hacc1. rewrite Hsame, Hacc2. reflexivity.
Qed.

Lemma report_independent_of_schedule_witness :
  main example_env example_schedule = Some example_execution
  ∧ main example_env sequential_schedule = Some example_execution
  ∧ Report.results example_report = Report.results example_report
  ∧ (∀ model,
       Summary.model_usage (Report.summary example_report) !! model
       = Summary.model_usage (Report.summary example_report) !! model)
  ∧ Summary.failed_questions (Report.summary example_report)
    ≡ₚ Summary.failed_questions (Report.summary example_report).
Proof.
  split; [vm_compute; reflexivity|]. split; [vm_compute; reflexivity|].
  apply (report_independent_of_schedule example_env example_schedule
           sequential_schedule example_execution example_execution
           example_report example_report example_questions).
  - reflexivity.
  - apply (bool_decide_unpack _). vm_compute. reflexivity.
  - vm_compute. reflexivity.
  - vm_compute. reflexivity.
  - reflexivity.
  - reflexivity.
Defined.

(** X12. Every result of the report was made for one of the input
    questions: it has that question's id, difficulty and text, and its
    model name and answer are the non-empty strings [get_completion]
    returned for that question. *)
Theorem results_come_from_questions
    (env : environment) (schedule : list nat) (e : execution) (rep : Report.t)
    (questions : list Question.t) (r : ResultEntry.t)
    (Hfile : questions_benchmark_json env = Loaded questions)
    (Hmain : main env schedule = Some e)
    (Hreport : final_output e = Some rep)
    (Hresult : r ∈ Report.results rep) :
  ∃ (i : nat) (q : Question.t),
    questions !! i = Some q
    ∧ returned (get_completion (openrouter env i) (Question.question q) 3 2)
      = (Some (ResultEntry.model_used r), Some (ResultEntry.answer r))
    ∧ ResultEntry.id r = Question.id q
    ∧ ResultEntry.difficulty r = Question.difficulty q
    ∧ ResultEntry.question r = Question.question q
    ∧ ResultEntry.model_used r ≠ ""
    ∧ ResultEntry.answer r ≠ "".
Proof.
  destruct (main_ledger _ _ _ _ Hmain Hreport)
    as (qs & d & Hfile' & _ & Hinv & Hledger & _ & ->).
  rewrite Hfile in Hfile'. injection Hfile' as <-.
  cbn [Report.results] in Hresult.
  rewrite sort_by_key_perm, (inv_results _ _ _ Hledger) in Hresult.
  destruct (finished_results_elem _ _ _ _ Hresult) as (i & q & st & Hi & Hin).
  cbn [Nat.add] in Hin.
  exists i, q. split.
  - rewrite <- (inv_questions _ _ _ Hinv), list_lookup_fmap, Hi. reflexivity.
  - destruct (answers_cases (openrouter env i) q)
      as [Hnone | (m & a & Hret & Hm & Ha & Hone)].
    + rewrite Hnone in Hin. inversion Hin.
    + rewrite Hone in Hin. apply list_elem_of_singleton in Hin. subst r.
      cbn. split_and!; try reflexivity; assumption.
Qed.

Lemma results_come_from_questions_witness :
  main example_env example_schedule = Some example_execution
  ∧ ∃ (i : nat) (q : Question.t),
      example_questions !! i = Some q
      ∧ returned (get_completion (openrouter example_env i) (Question.question q) 3 2)
        = (Some "m1", Some "an answer")
      ∧ 3%Z = Question.id q
      ∧ "hard" = Question.difficulty q
      ∧ "Is P equal to NP?" = Question.question q
      ∧ "m1" ≠ ""
      ∧ "an answer" ≠ "".
Proof.
  split; [vm_compute; reflexivity|].
  apply (results_come_from_questions example_env example_schedule example_execution
           example_report example_questions
           (ResultEntry.Build_t 3 "hard" "Is P equal to NP?" "m1" "an answer")).
  - reflexivity.
  - vm_compute. reflexivity.
  - reflexivity.
  - cbn [example_report Report.results]. rewrite !elem_of_cons.
    right. left. reflexivity.
Defined.

(** X13. In the report the counts of [model_usage] add up to the number
    of results. *)
Theorem model_usage_adds_up
    (env : environment) (schedule : list nat) (e : execution) (rep : Report.t)
    (Hmain : main env schedule = Some e)
    (Hreport : final_output e = Some rep) :
  usage_total (Summary.model_usage (Report.summary rep))
  = length (Report.results rep).
Proof.
  destruct (main_ledger _ _ _ _ Hmain Hreport)
    as (qs & d & _ & _ & _ & Hledger & _ & ->).
  cbn [Report.results Report.summary].
  rewrite (inv_usage_total _ _ _ Hledger).
  apply Permutation_length. symmetry. apply sort_by_key_perm.
Qed.

Lemma model_usage_adds_up_witness :
  main example_env example_schedule = Some example_execution
  ∧ usage_total (Summary.model_usage (Report.summary example_report)) = 2.
Proof.
  split; [vm_compute; reflexivity|].
  apply (model_usage_adds_up example_env example_schedule example_execution
           example_report).
  - vm_compute. reflexivity.
  - reflexivity.
Defined.

(** X14. An API key that is set but empty is treated like a missing one:
    [main] returns before calling any handler, sending any request or
    writing anything. *)
Theorem empty_key_aborts (env : environment) (schedule : list nat)
    (Hempty : OPEN_ROUTER_API_KEY env = Some "") :
  main env schedule = Some aborted.
Proof. unfold main. rewrite Hempty. reflexivity. Qed.

Lemma empty_key_aborts_witness :
  main empty_key_env example_schedule = Some (Execution [] 0 None None).
Proof.
  apply (empty_key_aborts empty_key_env example_schedule). reflexivity.
Defined.

(** X15. With the key set and an empty list of questions, [main] makes
    no call and sends no request, and still assembles and writes a
    report: no results, [total_questions] 0, nothing failed, no usage.
    [gather] returns without any task being resumed. *)
Theorem no_questions_empty_report (env : environment)
    (Hkey : truthy (OPEN_ROUTER_API_KEY env) = true)
    (Hfile : questions_benchmark_json env = Loaded []) :
  let report :=
    {| Report.results := []; Report.summary := initial_summary (now env) [] |} in
  main env []
  = Some (Execution [] 0 (Some report)
            (if output_writable env
             then Some (PyDict (Report.to_dict report)) else None))
  ∧ Summary.total_questions (Report.summary report) = 0
  ∧ Summary.failed_questions (Report.summary report) = []
  ∧ Summary.model_usage (Report.summary report) = ∅
  ∧ ∀ i rest, main env (i :: rest) = None.
Proof.
  cbv zeta. unfold main. rewrite Hkey, Hfile. cbn [negb].
  split_and!; try reflexivity.
Qed.

Lemma no_questions_empty_report_witness :
  ∃ written,
    main no_questions_env []
    = Some (Execution [] 0
              (Some {| Report.results := [];
                       Report.summary := initial_summary "2025-01-01T00:00:00" [] |})
              (Some written))
    ∧ ∀ i rest, main no_questions_env (i :: rest) = None.
Proof.
  destruct (no_questions_empty_report no_questions_env eq_refl eq_refl)
    as (Hrun & _ & _ & _ & Hnone).
  eexists. split; [exact Hrun | exact Hnone].
Defined.

(** X16. The report carries the time read before the tasks were created,
    the configured model list and the fixed routing text: no handler
    changes them, and nothing is stamped when the run ends. *)
Theorem summary_constants_preserved
    (env : environment) (schedule : list nat) (e : execution) (rep : Report.t)
    (Hmain : main env schedule = Some e)
    (Hreport : final_output e = Some rep) :
  Summary.timestamp (Report.summary rep) = now env
  ∧ Summary.models_configured_for_routing (Report.summary rep) = MODELS_FOR_ROUTING
  ∧ Summary.routing_insights (Report.summary rep)
    = Summary.routing_insights (initial_summary (now env) []).
Proof.
  destruct (main_ledger _ _ _ _ Hmain Hreport)
    as (qs & d & _ & _ & _ & Hledger & _ & ->).
  cbn [Report.summary].
  rewrite (inv_timestamp _ _ _ Hledger), (inv_models _ _ _ Hledger),
    (inv_insights _ _ _ Hledger).
  split_and!; reflexivity.
Qed.

Lemma summary_constants_preserved_witness :
  main example_env example_schedule = Some example_execution
  ∧ Summary.timestamp (Report.summary example_report) = "2025-01-01T00:00:00"
  ∧ Summary.models_configured_for_routing (Report.summary example_report)
    = ["openrouter/auto"].
Proof.
  split; [vm_compute; reflexivity|].
  destruct (summary_constants_preserved example_env example_schedule
              example_execution example_report) as (Htime & Hmodels & _).
  - vm_compute. reflexivity.
  - reflexivity.
  - split; [exact Htime | exact Hmodels].
Defined.

(** X17. What is written is a dict with the two keys [results] and
    [summary], in this order; every result is a dict with the keys [id],
    [difficulty], [question], [model_used], [answer]; and the written
    [total_questions] is the number of written results plus the number
    of written failed ids, whether or not the ids are distinct. *)
Theorem written_report_layout
    (env : environment) (schedule : list nat) (e : execution) (v : pyvalue)
    (Hmain : main env schedule = Some e)
    (Hwritten : output_file e = Some v) :
  ∃ results summary_items failed,
    v = PyDict [("results", PyList results); ("summary", PyDict summary_items)]
    ∧ Forall (λ r, ∃ items, r = PyDict items ∧ keys items = result_keys) results
    ∧ dict_get "failed_questions" summary_items = Some (PyList failed)
    ∧ dict_get "total_questions" summary_items
      = Some (PyInt (Z.of_nat (length results + length failed))).
Proof.
  destruct (main_written _ _ _ _ Hmain Hwritten) as (rep & Hrep & ->).
  destruct (main_report _ _ _ _ Hmain Hrep)
    as (qs & d & _ & _ & _ & Hdone & Hinv & _ & Hreport & _).
  destruct (gathered_inv _ _ _ Hinv Hdone) as (_ & _ & Hacc).
  exists ((PyDict ∘ ResultEntry.to_dict) <$> Report.results rep),
    (Summary.to_dict (Report.summary rep)),
    (PyInt <$> Summary.failed_questions (Report.summary rep)).
  split_and!.
  - reflexivity.
  - apply Forall_fmap, Forall_forall. intros r _. eexists. split; reflexivity.
  - reflexivity.
  - cbn [Summary.to_dict dict_get String.eqb Ascii.eqb Bool.eqb].
    do 3 f_equal. rewrite !length_fmap. subst rep.
    cbn [Report.results Report.summary].
    apply Permutation_length in Hacc. rewrite length_app, !length_fmap in Hacc.
    rewrite (Permutation_length (sort_by_key_perm ResultEntry.id _)).
    rewrite Hacc. apply (inv_total _ _ _ Hinv).
Qed.

Lemma written_report_layout_witness :
  main example_env example_schedule = Some example_execution
  ∧ ∃ results summary_items failed,
      PyDict (Report.to_dict example_report)
      = PyDict [("results", PyList results); ("summary", PyDict summary_items)]
      ∧ Forall (λ r, ∃ items, r = PyDict items ∧ keys items = result_keys) results
      ∧ dict_get "failed_questions" summary_items = Some (PyList failed)
      ∧ dict_get "total_questions" summary_items
        = Some (PyInt (Z.of_nat (length results + length failed))).
Proof.
  split; [vm_compute; reflexivity|].
  apply (written_report_layout example_env example_schedule example_execution).
  - vm_compute. reflexivity.
  - reflexivity.
Defined.
End OrchestratorExtras.

Section SortStable.
Context {A : Type} (key : A → Z).

Lemma filter_key_above (k : Z) (l : list A) :
  Forall (λ y, (k < key y)%Z) l → filter (λ y, key y = k) l = [].
Proof.
  induction 1 as [|y l Hy _ IH]; [reflexivity|].
  rewrite filter_cons, decide_False by lia. exact IH.
Qed.

Lemma sorted_tail_above (y : A) (l : list A) :
  Sorted Z.le (key <$> (y :: l)) → Forall (λ z, (key y ≤ key z)%Z) l.
Proof.
  rewrite fmap_cons. intros Hsorted.
  apply Sorted_StronglySorted in Hsorted; [|intros a b c; apply Z.le_trans].
  apply StronglySorted_inv in Hsorted as [_ Hmin].
  rewrite Forall_fmap in Hmin. exact Hmin.
Qed.

(** Into an ascending list an element goes behind those of its own key. *)
Lemma insert_by_key_stable (k : Z) (x : A) (l : list A) :
  Sorted Z.le (key <$> l) →
  filter (λ y, key y = k) (insert_by_key key x l)
  = filter (λ y, key y = k) (l ++ [x]).
Proof.
  induction l as [|y l IH]; intros Hsorted; [reflexivity|].
  cbn [insert_by_key]. destruct (key x <? key y)%Z eqn:Hlt.
  - apply Z.ltb_lt in Hlt.
    rewrite filter_app, (filter_cons _ x (y :: l)), (filter_cons _ x []), filter_nil.
    destruct (decide (key x = k)) as [Hx|Hx].
    + rewrite (filter_key_above k (y :: l)); [reflexivity|].
      constructor; [lia|].
      eapply Forall_impl; [apply sorted_tail_above, Hsorted|].
      cbn. intros z Hz. lia.
    + rewrite app_nil_r. reflexivity.
  - cbn [app]. rewrite !filter_cons, IH;
      [reflexivity | rewrite fmap_cons in Hsorted; apply Sorted_inv in Hsorted as [H _]; exact H].
Qed.

Lemma sort_from_stable (k : Z) (l : list A) : ∀ sorted,
  Sorted Z.le (key <$> sorted) →
  filter (λ y, key y = k) (foldl (λ sorted x, insert_by_key key x sorted) sorted l)
  = filter (λ y, key y = k) (sorted ++ l).
Proof.
  induction l as [|x l IH]; intros sorted Hsorted; cbn [foldl].
  - rewrite app_nil_r. reflexivity.
  - rewrite IH by (apply insert_by_key_sorted, Hsorted).
    rewrite !filter_app, insert_by_key_stable by exact Hsorted.
    rewrite filter_app, (filter_cons _ x l), <- app_assoc.
    f_equal. rewrite filter_cons, filter_nil.
    destruct (decide (key x = k)); reflexivity.
Qed.

(** X18. The sort by id is stable: the elements with a given key stand
    in the sorted list in the order they had before, so results with
    the same id stay in their order of completion. *)
Theorem sort_by_key_stable (k : Z) (l : list A) :
  filter (λ y, key y = k) (sort_by_key key l) = filter (λ y, key y = k) l.
Proof.
  unfold sort_by_key. rewrite sort_from_stable by constructor. reflexivity.
Qed.
End SortStable.

(** X19. The permits of the semaphore are never lost: in every state of
    a run the permits left and the handlers in flight add up to the
    limit, and when [gather] returns all permits are back. *)
Theorem semaphore_permits_returned
    (remote : nat → Service) (limit : nat) (timestamp : string)
    (questions : list Question.t) (d : dispatcher)
    (Hreach : reachable remote limit questions (initial_summary timestamp questions) d) :
  semaphore d + in_flight d = limit
  ∧ (gathered d = true → semaphore d = limit).
Proof.
  pose proof (reachable_inv _ _ _ _ _ Hreach) as Hinv.
  pose proof (inv_semaphore _ _ _ Hinv) as Hsem.
  split; [exact Hsem|].
  intros Hdone. destruct (gathered_inv _ _ _ Hinv Hdone) as (Hnone & _).
  lia.
Qed.

Lemma semaphore_permits_returned_witness :
  reachable (openrouter burst_env) CONCURRENT_REQUESTS burst_questions
    (initial_summary "2025-01-01T00:00:00" burst_questions) burst_state
  ∧ semaphore burst_state + in_flight burst_state = CONCURRENT_REQUESTS.
Proof.
  assert (Hreach : reachable (openrouter burst_env) CONCURRENT_REQUESTS
                     burst_questions
                     (initial_summary "2025-01-01T00:00:00" burst_questions)
                     burst_state).
  { apply (run_steps _ [0; 1; 2; 3; 4]). vm_compute. reflexivity. }
  split; [exact Hreach|].
  apply (semaphore_permits_returned _ _ _ _ _ Hreach).
Defined.

Section Answered.

Lemma answers_truthy client q :
  answers client q
  = if truthy (returned (get_completion client (Question.question q) 3 2)).1
       && truthy (returned (get_completion client (Question.question q) 3 2)).2
    then [ResultEntry.Build_t (Question.id q) (Question.difficulty q)
            (Question.question q)
            (default "" (returned (get_completion client (Question.question q) 3 2)).1)
            (default "" (returned (get_completion client (Question.question q) 3 2)).2)]
    else [].
Proof.
  unfold answers, process_question.
  destruct (returned _) as [model_used answer]. cbn [fst snd].
  destruct (truthy model_used && truthy answer); reflexivity.
Qed.

(** The results of a finished task are among the finished results. *)
Lemma finished_results_intro (remote : nat → Service)
    (l : list (Question.t * task_state)) : ∀ k i q r,
  l !! i = Some (q, Finished) → r ∈ answers (remote (k + i)) q →
  r ∈ finished_results remote k l.
Proof.
  induction l as [|[q' st] l IH]; intros k [|i] q r Hi Hr; try discriminate;
    cbn in Hi; cbn [finished_results]; rewrite elem_of_app.
  - injection Hi as -> ->. left. rewrite decide_True by reflexivity.
    rewrite Nat.add_0_r in Hr. exact Hr.
  - right. apply (IH (S k) i q r Hi).
    replace (S k + i) with (k + S i) by lia. exact Hr.
Qed.

(** X20. With pairwise distinct ids, a question is among the results of
    the report exactly when [get_completion] returned a non-empty model
    name and a non-empty answer for it, and among the failed ids exactly
    when it did not. *)
Theorem answered_iff_usable
    (env : environment) (schedule : list nat) (e : execution) (rep : Report.t)
    (questions : list Question.t) (k : nat) (q : Question.t)
    (Hfile : questions_benchmark_json env = Loaded questions)
    (Hdistinct : NoDup (Question.id <$> questions))
    (Hmain : main env schedule = Some e)
    (Hreport : final_output e = Some rep)
    (Hquestion : questions !! k = Some q) :
  let pair := returned (get_completion (openrouter env k) (Question.question q) 3 2) in
  (Question.id q ∈ ResultEntry.id <$> Report.results rep
   ↔ truthy pair.1 && truthy pair.2 = true)
  ∧ (Question.id q ∈ Summary.failed_questions (Report.summary rep)
     ↔ truthy pair.1 && truthy pair.2 = false).
Proof.
  intros pair.
  destruct (main_ledger _ _ _ _ Hmain Hreport)
    as (qs & d & Hfile' & Hdone & Hinv & Hledger & _ & ->).
  rewrite Hfile in Hfile'. injection Hfile' as <-.
  cbn [Report.results Report.summary].
  destruct (gathered_inv _ _ _ Hinv Hdone) as (_ & _ & Hacc).
  assert (Hnodup : NoDup ((ResultEntry.id <$> benchmark_results d)
                          ++ Summary.failed_questions (summary d)))
    by (rewrite Hacc; exact Hdistinct).
  apply NoDup_app in Hnodup as (_ & Hdisjoint & _).
  assert (Hsomewhere : Question.id q ∈ ResultEntry.id <$> benchmark_results d
                       ∨ Question.id q ∈ Summary.failed_questions (summary d)).
  { apply elem_of_app. rewrite Hacc. apply list_elem_of_fmap.
    exists q. split; [reflexivity|]. eapply list_elem_of_lookup_2, Hquestion. }
  assert (Htask : tasks d !! k = Some (q, Finished)).
  { rewrite (all_finished_tasks _ Hdone), (inv_questions _ _ _ Hinv).
    rewrite list_lookup_fmap, Hquestion. reflexivity. }
  assert (Hanswered : Question.id q ∈ ResultEntry.id <$> benchmark_results d
                      ↔ truthy pair.1 && truthy pair.2 = true).
  { split.
    - intros Hin. apply list_elem_of_fmap in Hin as (r & Hid & Hr).
      rewrite (inv_results _ _ _ Hledger) in Hr.
      destruct (finished_results_elem _ _ _ _ Hr) as (i & q' & st & Hi & Hin).
      cbn [Nat.add] in Hin.
      assert (Hq' : questions !! i = Some q').
      { rewrite <- (inv_questions _ _ _ Hinv), list_lookup_fmap, Hi. reflexivity. }
      rewrite answers_truthy in Hin.
      destruct (truthy _ && truthy _) eqn:Husable; [|inversion Hin].
      apply list_elem_of_singleton in Hin. subst r. cbn in Hid.
      assert (Hsame : i = k).
      { apply (NoDup_lookup _ i k (Question.id q) Hdistinct).
        - rewrite list_lookup_fmap, Hq', Hid. reflexivity.
        - rewrite list_lookup_fmap, Hquestion. reflexivity. }
      subst i. rewrite Hquestion in Hq'. injection Hq' as <-. exact Husable.
    - intros Husable. apply list_elem_of_fmap.
      eexists. split; [|rewrite (inv_results _ _ _ Hledger);
                         apply (finished_results_intro _ _ 0 k q _ Htask);
                         rewrite answers_truthy; cbn [Nat.add];
                         fold pair; rewrite Husable; apply list_elem_of_here].
      reflexivity. }
  split.
  - rewrite <- Hanswered. split; intros Hin.
    + apply list_elem_of_fmap in Hin as (r & -> & Hr).
      rewrite sort_by_key_perm in Hr. apply list_elem_of_fmap. eauto.
    + apply list_elem_of_fmap in Hin as (r & -> & Hr).
      rewrite <- (sort_by_key_perm ResultEntry.id) in Hr.
      apply list_elem_of_fmap. eauto.
  - split.
    + intros Hfailed. apply not_true_is_false. intros Husable.
      apply Hanswered in Husable. exact (Hdisjoint _ Husable Hfailed).
    + intros Hunusable. destruct Hsomewhere as [Hin|Hin]; [|exact Hin].
      apply Hanswered in Hin. congruence.
Qed.

Lemma answered_iff_usable_witness :
  main example_env example_schedule = Some example_execution
  ∧ (2%Z ∈ ResultEntry.id <$> Report.results example_report ↔ false = true)
  ∧ (2%Z ∈ Summary.failed_questions (Report.summary example_report) ↔ false = false).
Proof.
  split; [vm_compute; reflexivity|].
  apply (answered_iff_usable example_env example_schedule example_execution
           example_report example_questions 1
           (Question.Build_t 2 "medium" "Why is the sky blue?")).
  - reflexivity.
  - apply (bool_decide_unpack _). vm_compute. reflexivity.
  - vm_compute. reflexivity.
  - reflexivity.
  - reflexivity.
Defined.
End Answered.
